(** * Time scaling of swerve-drive kinematic commands

    A shallow embedding of [swervedrive/icr/timescaler.py]: the class
    [TimeScaler] with its methods [compute_scaling_bounds],
    [compute_scaling_parameters] and [scale_motion], and the module-level
    helper [in_range].

    Numbers.  The Python code computes with [int] and [float] scalars.  The
    embedding idealises them as exact rationals ([Q]): rounding, infinities
    and NaN are outside the model, and numeric results are compared with
    the rational equality [==].  The literals [1e-2] and [1e-09] are the
    rationals 1/100 and 1/10^9.

    Errors.  Python exceptions are values of [exn]; a computation that may
    raise is a [result].  Three exceptions can occur in this code: indexing
    a bound list that is too short ([IndexError]), true division by zero
    ([ZeroDivisionError]) and reading [self.s_dot] / [self.s_2dot] before
    they were ever assigned ([AttributeError]).

    State.  A [TimeScaler] object is a record; the attributes that
    [__init__] does not create are optional fields.  A method that mutates
    [self] returns the updated record. *)

From Stdlib Require Import List Bool ZArith QArith Qabs Qminmax Lia Lqa.
Import ListNotations.

Local Open Scope Q_scope.

(** ** Exceptions and the error monad *)

Inductive exn : Type :=
| IndexError
| ZeroDivisionError
| AttributeError.

Inductive result (A : Type) : Type :=
| Ok (a : A)
| Raise (e : exn).

Arguments Ok {A} a.
Arguments Raise {A} e.

Definition ret {A : Type} (a : A) : result A := Ok a.

Definition bind {A B : Type} (m : result A) (k : A -> result B) : result B :=
  match m with
  | Ok a => k a
  | Raise e => Raise e
  end.

Declare Scope py_scope.
Delimit Scope py_scope with py.
Notation "x <- m ;; k" := (bind m (fun x => k))
  (at level 61, m at next level, right associativity) : py_scope.
Notation "' p <- m ;; k" := (bind m (fun x => let 'p := x in k))
  (at level 61, p pattern, m at next level, right associativity) : py_scope.
Local Open Scope py_scope.

(** ** Python primitives used by the module *)

(** [a < b] on numbers. *)
Definition Qlt_bool (a b : Q) : bool := negb (Qle_bool b a).

(** [lst[i]] for a non-negative index: [IndexError] when out of range. *)
Definition index (lst : list Q) (i : nat) : result Q :=
  match nth_error lst i with
  | Some v => Ok v
  | None => Raise IndexError
  end.

(** [a / b], true division: [ZeroDivisionError] when [b] is zero. *)
Definition truediv (a b : Q) : result Q :=
  if Qeq_bool b 0 then Raise ZeroDivisionError else Ok (a / b).

(** The builtin [max(a, b)]: keeps the first argument unless the second is
    strictly greater. *)
Definition py_max (a b : Q) : Q := if Qlt_bool a b then b else a.

(** The builtin [min(a, b)]: keeps the first argument unless the second is
    strictly smaller. *)
Definition py_min (a b : Q) : Q := if Qlt_bool b a then b else a.

(** [math.isclose(a, b, rel_tol=..., abs_tol=...)] on finite numbers:
    equal, or the distance is within the relative tolerance of either
    argument, or within the absolute tolerance. *)
Definition isclose (a b rel_tol abs_tol : Q) : bool :=
  if Qeq_bool a b then true
  else
    let diff := Qabs (b - a) in
    Qle_bool diff (Qabs (rel_tol * b))
    || Qle_bool diff (Qabs (rel_tol * a))
    || Qle_bool diff abs_tol.

(** Default of [rel_tol] in [math.isclose]: [1e-09]. *)
Definition rel_tol_default : Q := 1 # 1000000000.

(** The literal [1e-2] of the two [isclose] calls. *)
Definition abs_tol_cmd : Q := 1 # 100.

(** ** The object *)

Record TimeScaler : Type := mkTimeScaler {
  beta_dot_b : list Q;
  beta_2dot_b : list Q;
  phi_2dot_b : list Q;
  s_dot : option Q;
  s_2dot : option Q
}.

(** [TimeScaler.__init__]: stores the three bound lists and nothing else. *)
Definition init (beta_dot_bounds beta_2dot_bounds phi_2dot_bounds : list Q)
  : TimeScaler :=
  {| beta_dot_b := beta_dot_bounds;
     beta_2dot_b := beta_2dot_bounds;
     phi_2dot_b := phi_2dot_bounds;
     s_dot := None;
     s_2dot := None |}.

(** Reading an attribute that may not exist yet. *)
Definition getattr (field : option Q) : result Q :=
  match field with
  | Some v => Ok v
  | None => Raise AttributeError
  end.

(** ** [in_range]

    [rng[0] <= value <= rng[1]] is a chained comparison: [rng[1]] is only
    evaluated when the first comparison holds. *)
Definition in_range (value : Q) (rng : list Q) : result bool :=
  lo <- index rng 0 ;;
  if Qle_bool lo value
  then hi <- index rng 1 ;; ret (Qle_bool value hi)
  else ret false.

(** ** [TimeScaler.compute_scaling_bounds] *)

(** The index pair [(1, 0) if x < 0 else (0, 1)]. *)
Definition lower_upper (x : Q) : nat * nat :=
  if Qlt_bool x 0 then (1%nat, 0%nat) else (0%nat, 1%nat).

(** The condition of the first [if]: [and] evaluates its right operand only
    when the left one is true. *)
Definition all_in_range (self : TimeScaler) (dbeta d2beta dphi_dot : Q)
  : result bool :=
  c1 <- in_range dbeta (beta_dot_b self) ;;
  if c1 then
    c2 <- in_range d2beta (beta_2dot_b self) ;;
    if c2 then in_range dphi_dot (phi_2dot_b self) else ret false
  else ret false.

Definition compute_scaling_bounds (self : TimeScaler) (dbeta d2beta dphi_dot : Q)
  : result (Q * Q * Q * Q) :=
  fast <- all_in_range self dbeta d2beta dphi_dot ;;
  if fast then ret (0, 1, 0, 1)
  else
    let ignore_beta := isclose dbeta 0 rel_tol_default abs_tol_cmd in
    let ignore_phi := isclose dphi_dot 0 rel_tol_default abs_tol_cmd in
    let '(ds_lower, ds_upper, d2s_lower, d2s_upper) := (0, 1, 0, 1) in
    '(ds_lower, ds_upper) <-
      (if negb ignore_beta then
         let '(lower, upper) := lower_upper dbeta in
         bl <- index (beta_2dot_b self) lower ;;
         ql <- truediv bl dbeta ;;
         let ds_lower := py_max ds_lower ql in
         bu <- index (beta_2dot_b self) upper ;;
         qu <- truediv bu dbeta ;;
         let ds_upper := py_min ds_upper qu in
         ret (ds_lower, ds_upper)
       else ret (ds_lower, ds_upper)) ;;
    '(ds_lower, ds_upper) <-
      (if negb ignore_phi then
         let '(lower, upper) := lower_upper dphi_dot in
         pl <- index (phi_2dot_b self) lower ;;
         ql <- truediv pl dphi_dot ;;
         let ds_lower := py_max ds_lower ql in
         pu <- index (phi_2dot_b self) upper ;;
         qu <- truediv pu dphi_dot ;;
         let ds_upper := py_min ds_upper qu in
         ret (ds_lower, ds_upper)
       else ret (ds_lower, ds_upper)) ;;
    '(d2s_lower, d2s_upper) <-
      (if negb ignore_beta then
         let s_dot := ds_upper in
         let '(lower, upper) := lower_upper dbeta in
         bl <- index (beta_2dot_b self) lower ;;
         ql <- truediv (bl - d2beta * s_dot ^ 2) dbeta ;;
         let d2s_lower := py_max d2s_lower ql in
         bu <- index (beta_2dot_b self) upper ;;
         qu <- truediv (bu - d2beta * s_dot ^ 2) dbeta ;;
         let d2s_upper := py_min d2s_upper qu in
         ret (d2s_lower, d2s_upper)
       else ret (d2s_lower, d2s_upper)) ;;
    ret (ds_lower, ds_upper, d2s_lower, d2s_upper).

(** ** [TimeScaler.compute_scaling_parameters]

    Assigns the two attributes and returns [None]; the lower bounds are
    never read. *)
Definition compute_scaling_parameters (self : TimeScaler)
  (ds_lower ds_upper d2s_lower d2s_upper : Q) : TimeScaler :=
  {| beta_dot_b := beta_dot_b self;
     beta_2dot_b := beta_2dot_b self;
     phi_2dot_b := phi_2dot_b self;
     s_dot := Some ds_upper;
     s_2dot := Some d2s_upper |}.

(** ** [TimeScaler.scale_motion] *)

Definition scale_motion (self : TimeScaler) (dbeta d2beta dphi_dot : Q)
  : result (Q * Q * Q) :=
  sd <- getattr (s_dot self) ;;
  let beta_dot := dbeta * sd in
  sd1 <- getattr (s_dot self) ;;
  sdd <- getattr (s_2dot self) ;;
  let beta_2dot := d2beta * sd1 ^ 2 + dbeta * sdd in
  sd2 <- getattr (s_dot self) ;;
  let phi_2dot := dphi_dot * sd2 in
  ret (beta_dot, beta_2dot, phi_2dot).

(** ** Sequences of method calls on one object

    [compute_scaling_parameters] is the only method that assigns to
    [self]; the other two leave the object as it is, whether they return
    or raise. *)

Inductive call : Type :=
| CallBounds (dbeta d2beta dphi_dot : Q)
| CallParameters (ds_lower ds_upper d2s_lower d2s_upper : Q)
| CallScale (dbeta d2beta dphi_dot : Q).

Definition step (self : TimeScaler) (c : call) : TimeScaler :=
  match c with
  | CallBounds _ _ _ => self
  | CallParameters a b c d => compute_scaling_parameters self a b c d
  | CallScale _ _ _ => self
  end.

Definition run (self : TimeScaler) (calls : list call) : TimeScaler :=
  fold_left step calls self.

Definition is_parameters (c : call) : bool :=
  match c with
  | CallParameters _ _ _ _ => true
  | _ => false
  end.

(** ** Vocabulary of the statements *)

(** [rng[i]] when the list is long enough. *)
Definition sel (rng : list Q) (i : nat) : Q := nth i rng 0.

(** A bound list can be indexed at 0 and at 1. *)
Definition two_bounds (rng : list Q) : Prop := (2 <= length rng)%nat.

(** All three bound lists of the object hold a minimum and a maximum. *)
Definition has_bounds (self : TimeScaler) : Prop :=
  two_bounds (beta_dot_b self)
  /\ two_bounds (beta_2dot_b self)
  /\ two_bounds (phi_2dot_b self).

(** Inclusive membership of a value in a bound list. *)
Definition within (value : Q) (rng : list Q) : Prop :=
  sel rng 0 <= value /\ value <= sel rng 1.

(** The command component is dropped from its constraint. *)
Definition ignored (x : Q) : Prop := Qabs x <= 1 # 100.

(** An interval [min, max] with [min <= max]. *)
Definition ordered (rng : list Q) : Prop :=
  two_bounds rng /\ sel rng 0 <= sel rng 1.

(** [wide] has a minimum no larger and a maximum no smaller than [rng]. *)
Definition widens_rng (rng wide : list Q) : Prop :=
  ordered rng /\ ordered wide
  /\ sel wide 0 <= sel rng 0 /\ sel rng 1 <= sel wide 1.

Definition widens (self wide : TimeScaler) : Prop :=
  widens_rng (beta_dot_b self) (beta_dot_b wide)
  /\ widens_rng (beta_2dot_b self) (beta_2dot_b wide)
  /\ widens_rng (phi_2dot_b self) (phi_2dot_b wide).

(** The value [compute_scaling_bounds] returns past its first [if], with
    both indexings and all divisions succeeding. *)
Definition slow_path (self : TimeScaler) (dbeta d2beta dphi_dot : Q)
  : Q * Q * Q * Q :=
  let ib := isclose dbeta 0 rel_tol_default abs_tol_cmd in
  let ip := isclose dphi_dot 0 rel_tol_default abs_tol_cmd in
  let b := beta_2dot_b self in
  let p := phi_2dot_b self in
  let lb := fst (lower_upper dbeta) in
  let ub := snd (lower_upper dbeta) in
  let lp := fst (lower_upper dphi_dot) in
  let up := snd (lower_upper dphi_dot) in
  let l1 := if ib then 0 else py_max 0 (sel b lb / dbeta) in
  let u1 := if ib then 1 else py_min 1 (sel b ub / dbeta) in
  let l2 := if ip then l1 else py_max l1 (sel p lp / dphi_dot) in
  let u2 := if ip then u1 else py_min u1 (sel p up / dphi_dot) in
  let l3 := if ib then 0
            else py_max 0 ((sel b lb - d2beta * u2 ^ 2) / dbeta) in
  let u3 := if ib then 1
            else py_min 1 ((sel b ub - d2beta * u2 ^ 2) / dbeta) in
  (l2, u2, l3, u3).

(** One tightening step of the bound protocol, for a command component
    [x] and the numerators [n0], [n1] that belong to the minimum (index 0)
    and the maximum (index 1) of a bound list: the interval [l, u] becomes
    [l', u'].  For a negative [x] the two numerators change places. *)
Definition tightened (n0 n1 x l u l' u' : Q) : Prop :=
  (x < 0 -> l' == Qmax l (n1 / x) /\ u' == Qmin u (n0 / x))
  /\ (~ x < 0 -> l' == Qmax l (n0 / x) /\ u' == Qmin u (n1 / x)).

(** The bound protocol as the specification words it (steps 2 to 6 of the
    bound computation): start from [(0, 1, 0, 1)]; tighten the rate interval
    with the module acceleration bounds unless [dbeta] is ignored, then with
    the wheel acceleration bounds unless [dphi_dot] is ignored; unless
    [dbeta] is ignored tighten the second-order interval at the working
    point [sDot = dsUpper].  Nothing relates the lower to the upper ends:
    the intervals are neither clamped nor repaired. *)
Definition bound_protocol (self : TimeScaler) (dbeta d2beta dphi_dot : Q)
  (r : Q * Q * Q * Q) : Prop :=
  let '(dsLower, dsUpper, d2sLower, d2sUpper) := r in
  let b := beta_2dot_b self in
  let p := phi_2dot_b self in
  exists l1 u1,
    (ignored dbeta -> l1 = 0 /\ u1 = 1 /\ d2sLower = 0 /\ d2sUpper = 1)
    /\ (~ ignored dbeta ->
        tightened (sel b 0) (sel b 1) dbeta 0 1 l1 u1
        /\ let sDot := dsUpper in
           tightened (sel b 0 - d2beta * sDot ^ 2)
             (sel b 1 - d2beta * sDot ^ 2) dbeta 0 1 d2sLower d2sUpper)
    /\ (ignored dphi_dot -> dsLower = l1 /\ dsUpper = u1)
    /\ (~ ignored dphi_dot ->
        tightened (sel p 0) (sel p 1) dphi_dot l1 u1 dsLower dsUpper).

(** The bound list [[-max, -min]]: the interval reflected at zero. *)
Definition mirror (rng : list Q) : list Q := [- sel rng 1; - sel rng 0].

(** The object with all three bound intervals reflected at zero. *)
Definition mirrored (self : TimeScaler) : TimeScaler :=
  {| beta_dot_b := mirror (beta_dot_b self);
     beta_2dot_b := mirror (beta_2dot_b self);
     phi_2dot_b := mirror (phi_2dot_b self);
     s_dot := s_dot self;
     s_2dot := s_2dot self |}.

(** Two results of [compute_scaling_bounds] with equal numbers. *)
Definition same_bounds (r r' : Q * Q * Q * Q) : Prop :=
  let '(l, u, l2, u2) := r in
  let '(l', u', l2', u2') := r' in
  l == l' /\ u == u' /\ l2 == l2' /\ u2 == u2'.

(** ** Closed comparisons of rationals *)

Ltac qcmp :=
  repeat match goal with
         | |- _ /\ _ => split
         end;
  try reflexivity;
  try (unfold two_bounds; simpl; lia);
  try (unfold Qle, Qlt; simpl; lia).

(** ** Comparisons, [max], [min] and [isclose] *)

Lemma Qlt_bool_true (a b : Q) : Qlt_bool a b = true <-> a < b.
Proof.
  unfold Qlt_bool. rewrite negb_true_iff. split; intro H.
  - apply Qnot_le_lt. intro Hle. apply Qle_bool_iff in Hle. congruence.
  - destruct (Qle_bool b a) eqn:E; [|reflexivity].
    apply Qle_bool_iff in E. exfalso. apply (Qlt_not_le a b); assumption.
Qed.

Lemma Qlt_bool_false (a b : Q) : Qlt_bool a b = false <-> b <= a.
Proof.
  unfold Qlt_bool. rewrite negb_false_iff. apply Qle_bool_iff.
Qed.

Lemma py_max_Qmax (a b : Q) : py_max a b == Qmax a b.
Proof.
  unfold py_max. destruct (Qlt_bool a b) eqn:E.
  - apply Qlt_bool_true in E. symmetry. apply Q.max_r. apply Qlt_le_weak, E.
  - apply Qlt_bool_false in E. symmetry. apply Q.max_l. exact E.
Qed.

Lemma py_min_Qmin (a b : Q) : py_min a b == Qmin a b.
Proof.
  unfold py_min. destruct (Qlt_bool b a) eqn:E.
  - apply Qlt_bool_true in E. symmetry. apply Q.min_r. apply Qlt_le_weak, E.
  - apply Qlt_bool_false in E. symmetry. apply Q.min_l. exact E.
Qed.

Lemma py_max_lower (a b : Q) : a <= py_max a b.
Proof. rewrite py_max_Qmax. apply Q.le_max_l. Qed.

Lemma py_min_upper (a b : Q) : py_min a b <= a.
Proof. rewrite py_min_Qmin. apply Q.le_min_l. Qed.

Lemma isclose_zero (x : Q) :
  isclose x 0 rel_tol_default abs_tol_cmd = true <-> ignored x.
Proof.
  unfold isclose, ignored, rel_tol_default, abs_tol_cmd.
  destruct (Qeq_bool x 0) eqn:E.
  - apply Qeq_bool_iff in E. split; [intros _|reflexivity].
    rewrite E. discriminate.
  - assert (Hd : Qabs (0 - x) == Qabs x).
    { rewrite <- (Qabs_opp x). apply Qabs_wd. ring. }
    assert (H0 : Qabs ((1 # 1000000000) * 0) == 0).
    { rewrite Qmult_0_r. reflexivity. }
    assert (Hr : Qabs ((1 # 1000000000) * x) == (1 # 1000000000) * Qabs x).
    { rewrite Qabs_Qmult. reflexivity. }
    pose proof (Qabs_nonneg x) as Hn.
    rewrite !orb_true_iff, !Qle_bool_iff, Hd, H0, Hr.
    split.
    + intros [[H|H]|H]; lra.
    + intro H. right. exact H.
Qed.

Lemma isclose_zero_false (x : Q) :
  isclose x 0 rel_tol_default abs_tol_cmd = false <-> ~ ignored x.
Proof.
  rewrite <- isclose_zero.
  destruct (isclose x 0 rel_tol_default abs_tol_cmd); intuition congruence.
Qed.

Lemma not_ignored_nonzero (x : Q) :
  isclose x 0 rel_tol_default abs_tol_cmd = false -> Qeq_bool x 0 = false.
Proof.
  unfold isclose. destruct (Qeq_bool x 0); [discriminate|reflexivity].
Qed.

Lemma lower_upper_neg (x : Q) : x < 0 -> lower_upper x = (1%nat, 0%nat).
Proof.
  intro H. unfold lower_upper. apply Qlt_bool_true in H. now rewrite H.
Qed.

Lemma lower_upper_nonneg (x : Q) : ~ x < 0 -> lower_upper x = (0%nat, 1%nat).
Proof.
  intro H. unfold lower_upper. destruct (Qlt_bool x 0) eqn:E; [|reflexivity].
  apply Qlt_bool_true in E. contradiction.
Qed.

(** ** Indexing and the range test *)

Lemma index_sel (rng : list Q) (i : nat) :
  two_bounds rng -> (i < 2)%nat -> index rng i = Ok (sel rng i).
Proof.
  unfold two_bounds, index, sel. intros Hlen Hi.
  destruct (nth_error rng i) as [v|] eqn:E.
  - f_equal. symmetry. apply nth_error_nth. exact E.
  - apply nth_error_None in E. lia.
Qed.

Lemma lower_upper_cases (x : Q) :
  lower_upper x = (1%nat, 0%nat) \/ lower_upper x = (0%nat, 1%nat).
Proof. unfold lower_upper. destruct (Qlt_bool x 0); auto. Qed.

Lemma in_range_sel (value : Q) (rng : list Q) :
  two_bounds rng ->
  in_range value rng
  = Ok (Qle_bool (sel rng 0) value && Qle_bool value (sel rng 1)).
Proof.
  intro H. unfold in_range.
  rewrite (index_sel rng 0 H), (index_sel rng 1 H) by lia. simpl.
  destruct (Qle_bool (sel rng 0) value); reflexivity.
Qed.

Lemma in_range_within (value : Q) (rng : list Q) :
  two_bounds rng -> (in_range value rng = Ok true <-> within value rng).
Proof.
  intro H. rewrite (in_range_sel value rng H). unfold within.
  rewrite <- !Qle_bool_iff.
  destruct (Qle_bool (sel rng 0) value), (Qle_bool value (sel rng 1));
    simpl; intuition congruence.
Qed.

Lemma all_in_range_sel (self : TimeScaler) (dbeta d2beta dphi_dot : Q) :
  has_bounds self ->
  all_in_range self dbeta d2beta dphi_dot
  = Ok ((Qle_bool (sel (beta_dot_b self) 0) dbeta
         && Qle_bool dbeta (sel (beta_dot_b self) 1))
        && (Qle_bool (sel (beta_2dot_b self) 0) d2beta
            && Qle_bool d2beta (sel (beta_2dot_b self) 1))
        && (Qle_bool (sel (phi_2dot_b self) 0) dphi_dot
            && Qle_bool dphi_dot (sel (phi_2dot_b self) 1))).
Proof.
  intros (H1 & H2 & H3). unfold all_in_range.
  rewrite (in_range_sel _ _ H1), (in_range_sel _ _ H2), (in_range_sel _ _ H3).
  simpl.
  destruct (Qle_bool (sel (beta_dot_b self) 0) dbeta
            && Qle_bool dbeta (sel (beta_dot_b self) 1)); simpl;
    [|reflexivity].
  destruct (Qle_bool (sel (beta_2dot_b self) 0) d2beta
            && Qle_bool d2beta (sel (beta_2dot_b self) 1)); reflexivity.
Qed.

Lemma all_in_range_total (self : TimeScaler) (dbeta d2beta dphi_dot : Q) :
  has_bounds self ->
  exists fast, all_in_range self dbeta d2beta dphi_dot = Ok fast.
Proof. intro H. rewrite (all_in_range_sel _ _ _ _ H). eauto. Qed.

Lemma all_in_range_within (self : TimeScaler) (dbeta d2beta dphi_dot : Q) :
  has_bounds self ->
  (all_in_range self dbeta d2beta dphi_dot = Ok true
   <-> within dbeta (beta_dot_b self)
       /\ within d2beta (beta_2dot_b self)
       /\ within dphi_dot (phi_2dot_b self)).
Proof.
  intro H. rewrite (all_in_range_sel _ _ _ _ H). unfold within.
  rewrite <- !Qle_bool_iff.
  split.
  - intro E. injection E as E.
    rewrite !andb_true_iff in E. tauto.
  - intros ((A1 & A2) & (B1 & B2) & (C1 & C2)).
    rewrite A1, A2, B1, B2, C1, C2. reflexivity.
Qed.

(** ** The two paths of [compute_scaling_bounds] *)

Lemma compute_scaling_bounds_fast (self : TimeScaler) (dbeta d2beta dphi_dot : Q) :
  all_in_range self dbeta d2beta dphi_dot = Ok true ->
  compute_scaling_bounds self dbeta d2beta dphi_dot = Ok (0, 1, 0, 1).
Proof. intro H. unfold compute_scaling_bounds. rewrite H. reflexivity. Qed.

Lemma compute_scaling_bounds_slow (self : TimeScaler) (dbeta d2beta dphi_dot : Q) :
  has_bounds self ->
  all_in_range self dbeta d2beta dphi_dot = Ok false ->
  compute_scaling_bounds self dbeta d2beta dphi_dot
  = Ok (slow_path self dbeta d2beta dphi_dot).
Proof.
  intros (_ & Hb & Hp) H. unfold compute_scaling_bounds, slow_path.
  rewrite H. cbn [bind].
  destruct (isclose dbeta 0 rel_tol_default abs_tol_cmd) eqn:Eb;
    destruct (isclose dphi_dot 0 rel_tol_default abs_tol_cmd) eqn:Ep;
    cbn [negb bind ret].
  - reflexivity.
  - apply not_ignored_nonzero in Ep. unfold truediv. rewrite Ep.
    destruct (lower_upper_cases dphi_dot) as [E|E]; rewrite E; cbn [fst snd];
      rewrite !(index_sel _ _ Hp) by lia; reflexivity.
  - apply not_ignored_nonzero in Eb. unfold truediv. rewrite Eb.
    destruct (lower_upper_cases dbeta) as [E|E]; rewrite E; cbn [fst snd];
      rewrite !(index_sel _ _ Hb) by lia; reflexivity.
  - apply not_ignored_nonzero in Eb. apply not_ignored_nonzero in Ep.
    unfold truediv. rewrite Eb, Ep.
    destruct (lower_upper_cases dbeta) as [E|E]; rewrite E;
      destruct (lower_upper_cases dphi_dot) as [E'|E']; rewrite E';
      cbn [fst snd];
      rewrite !(index_sel _ _ Hb), !(index_sel _ _ Hp) by lia; reflexivity.
Qed.

Lemma compute_scaling_bounds_total (self : TimeScaler) (dbeta d2beta dphi_dot : Q) :
  has_bounds self ->
  exists r, compute_scaling_bounds self dbeta d2beta dphi_dot = Ok r.
Proof.
  intro H. destruct (all_in_range_total self dbeta d2beta dphi_dot H) as [[|] E].
  - rewrite (compute_scaling_bounds_fast _ _ _ _ E). eauto.
  - rewrite (compute_scaling_bounds_slow _ _ _ _ H E). eauto.
Qed.

(** A bound list with fewer than two elements makes the method raise only
    when the missing element is asked for: the chained comparison of
    [in_range] stops at a failed first test. *)
Lemma compute_scaling_bounds_short_list :
  compute_scaling_bounds (init [-1] [-2; 2] [-3; 3]) 0 0 0 = Raise IndexError
  /\ compute_scaling_bounds (init [-1] [-2; 2] [-3; 3]) (-2) 0 0
     = Ok (0, 1, 0, 1)
  /\ compute_scaling_bounds (init [-1; 1] [2] [-3; 3]) 4 0 0
     = Raise IndexError.
Proof. repeat split. Qed.

(** ** Stored parameters along a sequence of calls *)

Lemma run_app (self : TimeScaler) (pre post : list call) :
  run self (pre ++ post) = run (run self pre) post.
Proof. unfold run. apply fold_left_app. Qed.

Lemma run_without_parameters (calls : list call) :
  forall self, existsb is_parameters calls = false -> run self calls = self.
Proof.
  induction calls as [|c calls IH]; intros self H; [reflexivity|].
  simpl in H. apply orb_false_iff in H. destruct H as [Hc Hrest].
  change (run self (c :: calls)) with (run (step self c) calls).
  rewrite (IH _ Hrest). destruct c; simpl in *; congruence.
Qed.

Lemma run_keeps_parameters (calls : list call) :
  forall self,
    (exists sd sdd, s_dot self = Some sd /\ s_2dot self = Some sdd) ->
    exists sd sdd,
      s_dot (run self calls) = Some sd /\ s_2dot (run self calls) = Some sdd.
Proof.
  induction calls as [|c calls IH]; intros self H; [exact H|].
  change (run self (c :: calls)) with (run (step self c) calls).
  apply IH. destruct c; simpl; eauto.
Qed.

Lemma run_with_parameters (calls : list call) :
  forall self,
    existsb is_parameters calls = true ->
    exists sd sdd,
      s_dot (run self calls) = Some sd /\ s_2dot (run self calls) = Some sdd.
Proof.
  induction calls as [|c calls IH]; intros self H; [discriminate|].
  change (run self (c :: calls)) with (run (step self c) calls).
  destruct c; simpl in H; try (apply IH; exact H).
  apply run_keeps_parameters. simpl. eauto.
Qed.

Lemma scale_motion_stored (self : TimeScaler) (sd sdd dbeta d2beta dphi_dot : Q) :
  s_dot self = Some sd ->
  s_2dot self = Some sdd ->
  scale_motion self dbeta d2beta dphi_dot
  = Ok (dbeta * sd, d2beta * sd ^ 2 + dbeta * sdd, dphi_dot * sd).
Proof. intros H1 H2. unfold scale_motion. rewrite H1, H2. reflexivity. Qed.

(** ** The slow path follows the bound protocol *)

Lemma tightened_py (f : nat -> Q) (x l u : Q) :
  tightened (f 0%nat) (f 1%nat) x l u
    (py_max l (f (fst (lower_upper x)) / x))
    (py_min u (f (snd (lower_upper x)) / x)).
Proof.
  split; intro H.
  - rewrite (lower_upper_neg x H). cbn [fst snd].
    split; [apply py_max_Qmax|apply py_min_Qmin].
  - rewrite (lower_upper_nonneg x H). cbn [fst snd].
    split; [apply py_max_Qmax|apply py_min_Qmin].
Qed.

Lemma slow_path_protocol (self : TimeScaler) (dbeta d2beta dphi_dot : Q) :
  bound_protocol self dbeta d2beta dphi_dot
    (slow_path self dbeta d2beta dphi_dot).
Proof.
  unfold bound_protocol, slow_path.
  destruct (isclose dbeta 0 rel_tol_default abs_tol_cmd) eqn:Eb;
    destruct (isclose dphi_dot 0 rel_tol_default abs_tol_cmd) eqn:Ep;
    cbv zeta.
  - apply isclose_zero in Eb, Ep.
    exists 0, 1. repeat split; auto; contradiction.
  - apply isclose_zero in Eb. apply isclose_zero_false in Ep.
    exists 0, 1. split; [auto|]. split; [contradiction|].
    split; [contradiction|]. intros _.
    apply (tightened_py (sel (phi_2dot_b self))).
  - apply isclose_zero_false in Eb. apply isclose_zero in Ep.
    eexists _, _. split; [contradiction|]. split; [|split].
    + intros _. split.
      * apply (tightened_py (sel (beta_2dot_b self))).
      * apply (tightened_py
                 (fun i => sel (beta_2dot_b self) i
                           - d2beta * py_min 1 (sel (beta_2dot_b self)
                                 (snd (lower_upper dbeta)) / dbeta) ^ 2)).
    + intros _. split; reflexivity.
    + contradiction.
  - apply isclose_zero_false in Eb, Ep.
    eexists _, _. split; [contradiction|]. split; [|split].
    + intros _. split.
      * apply (tightened_py (sel (beta_2dot_b self))).
      * apply (tightened_py
                 (fun i => sel (beta_2dot_b self) i
                           - d2beta * py_min
                               (py_min 1 (sel (beta_2dot_b self)
                                  (snd (lower_upper dbeta)) / dbeta))
                               (sel (phi_2dot_b self)
                                  (snd (lower_upper dphi_dot)) / dphi_dot)
                             ^ 2)).
    + contradiction.
    + intros _. apply (tightened_py (sel (phi_2dot_b self))).
Qed.

Lemma slow_path_unit (self : TimeScaler) (dbeta d2beta dphi_dot : Q) :
  let '(l, u, l2, u2) := slow_path self dbeta d2beta dphi_dot in
  0 <= l /\ u <= 1 /\ 0 <= l2 /\ u2 <= 1.
Proof.
  unfold slow_path.
  destruct (isclose dbeta 0 rel_tol_default abs_tol_cmd);
    destruct (isclose dphi_dot 0 rel_tol_default abs_tol_cmd);
    cbv zeta;
    repeat split;
    repeat first
      [ apply Qle_refl
      | apply py_max_lower
      | apply py_min_upper
      | eapply Qle_trans; [|apply py_max_lower]
      | eapply Qle_trans; [apply py_min_upper|] ].
Qed.

(** ** Monotonicity of one tightening step *)

Lemma Qdiv_le_pos (a b x : Q) : 0 < x -> a <= b -> a / x <= b / x.
Proof.
  intros Hx Hab. unfold Qdiv. apply Qmult_le_compat_r; [exact Hab|].
  apply Qlt_le_weak, Qinv_lt_0_compat, Hx.
Qed.

Lemma Qdiv_le_neg (a b x : Q) : x < 0 -> a <= b -> b / x <= a / x.
Proof.
  intros Hx Hab.
  assert (Hn : ~ x == 0) by (intro E; rewrite E in Hx; discriminate).
  assert (Ha : a / x == (- a) / (- x)) by (field; exact Hn).
  assert (Hb : b / x == (- b) / (- x)) by (field; exact Hn).
  rewrite Ha, Hb. apply Qdiv_le_pos; lra.
Qed.

Lemma not_ignored_sign (x : Q) : ~ ignored x -> x < 0 \/ 0 < x.
Proof.
  intro H. destruct (Q_dec x 0) as [[Hlt|Hgt]|Heq]; auto.
  exfalso. apply H. unfold ignored. rewrite Heq. discriminate.
Qed.

Lemma step_widens (f g : nat -> Q) (x l l' u u' : Q) :
  ~ ignored x ->
  g 0%nat <= f 0%nat ->
  f 1%nat <= g 1%nat ->
  l' <= l ->
  u <= u' ->
  py_max l' (g (fst (lower_upper x)) / x)
  <= py_max l (f (fst (lower_upper x)) / x)
  /\ py_min u (f (snd (lower_upper x)) / x)
     <= py_min u' (g (snd (lower_upper x)) / x).
Proof.
  intros Hx H0 H1 Hl Hu. rewrite !py_max_Qmax, !py_min_Qmin.
  destruct (not_ignored_sign x Hx) as [Hneg|Hpos].
  - rewrite (lower_upper_neg x Hneg). cbn [fst snd]. split.
    + apply Q.max_le_compat; [exact Hl|]. apply Qdiv_le_neg; assumption.
    + apply Q.min_le_compat; [exact Hu|]. apply Qdiv_le_neg; assumption.
  - assert (Hnn : ~ x < 0) by (intro; lra).
    rewrite (lower_upper_nonneg x Hnn). cbn [fst snd]. split.
    + apply Q.max_le_compat; [exact Hl|]. apply Qdiv_le_pos; assumption.
    + apply Q.min_le_compat; [exact Hu|]. apply Qdiv_le_pos; assumption.
Qed.

Lemma within_widens (value : Q) (rng wide : list Q) :
  widens_rng rng wide -> within value rng -> within value wide.
Proof.
  unfold widens_rng, within. intros (_ & _ & H0 & H1) (A & B).
  split; eapply Qle_trans; eassumption.
Qed.

Lemma widens_has_bounds (self wide : TimeScaler) :
  widens self wide -> has_bounds self /\ has_bounds wide.
Proof.
  unfold widens, widens_rng, ordered, has_bounds. tauto.
Qed.

Lemma scaled_magnitude (x s : Q) : 0 <= s -> s <= 1 -> Qabs (x * s) <= Qabs x.
Proof.
  intros H0 H1. rewrite Qabs_Qmult, (Qabs_pos s H0).
  pose proof (Qabs_nonneg x) as Hx.
  rewrite <- (Qmult_1_r (Qabs x)) at 2.
  rewrite (Qmult_comm (Qabs x) s), (Qmult_comm (Qabs x) 1).
  apply Qmult_le_compat_r; assumption.
Qed.

Lemma slow_path_widens (self wide : TimeScaler) (dbeta d2beta dphi_dot : Q) :
  widens self wide ->
  let '(l, u, l2, u2) := slow_path self dbeta d2beta dphi_dot in
  let '(l', u', l2', u2') := slow_path wide dbeta d2beta dphi_dot in
  l' <= l /\ u <= u'
  /\ (d2beta * u' ^ 2 == d2beta * u ^ 2 -> l2' <= l2 /\ u2 <= u2').
Proof.
  intros (_ & (_ & _ & B0 & B1) & (_ & _ & P0 & P1)).
  unfold slow_path.
  destruct (isclose dbeta 0 rel_tol_default abs_tol_cmd) eqn:Eb;
    destruct (isclose dphi_dot 0 rel_tol_default abs_tol_cmd) eqn:Ep;
    cbv zeta.
  - repeat split; apply Qle_refl.
  - apply isclose_zero_false in Ep.
    destruct (step_widens (sel (phi_2dot_b self)) (sel (phi_2dot_b wide))
                dphi_dot 0 0 1 1 Ep P0 P1 (Qle_refl 0) (Qle_refl 1))
      as [A B].
    repeat split; try assumption; apply Qle_refl.
  - apply isclose_zero_false in Eb.
    destruct (step_widens (sel (beta_2dot_b self)) (sel (beta_2dot_b wide))
                dbeta 0 0 1 1 Eb B0 B1 (Qle_refl 0) (Qle_refl 1))
      as [A B].
    split; [exact A|]. split; [exact B|]. intro Hs.
    apply (step_widens
             (fun i => sel (beta_2dot_b self) i - d2beta * _ ^ 2)
             (fun i => sel (beta_2dot_b wide) i - d2beta * _ ^ 2)
             dbeta 0 0 1 1 Eb); try apply Qle_refl; cbv beta.
    + rewrite Hs. lra.
    + rewrite Hs. lra.
  - apply isclose_zero_false in Eb, Ep.
    destruct (step_widens (sel (beta_2dot_b self)) (sel (beta_2dot_b wide))
                dbeta 0 0 1 1 Eb B0 B1 (Qle_refl 0) (Qle_refl 1))
      as [A B].
    destruct (step_widens (sel (phi_2dot_b self)) (sel (phi_2dot_b wide))
                dphi_dot _ _ _ _ Ep P0 P1 A B)
      as [C D].
    split; [exact C|]. split; [exact D|]. intro Hs.
    apply (step_widens
             (fun i => sel (beta_2dot_b self) i - d2beta * _ ^ 2)
             (fun i => sel (beta_2dot_b wide) i - d2beta * _ ^ 2)
             dbeta 0 0 1 1 Eb); try apply Qle_refl; cbv beta.
    + rewrite Hs. lra.
    + rewrite Hs. lra.
Qed.

(** ** Properties of the three operations *)

(** C3. When [dbeta] lies in the rate bounds, [d2beta] in the module
    acceleration bounds and [dphi_dot] in the wheel acceleration bounds, all
    inclusively, [compute_scaling_bounds] returns exactly [(0, 1, 0, 1)]. *)
Theorem compute_scaling_bounds_identity
  (self : TimeScaler) (dbeta d2beta dphi_dot : Q) :
  has_bounds self ->
  within dbeta (beta_dot_b self) ->
  within d2beta (beta_2dot_b self) ->
  within dphi_dot (phi_2dot_b self) ->
  compute_scaling_bounds self dbeta d2beta dphi_dot = Ok (0, 1, 0, 1).
Proof.
  intros Hb H1 H2 H3. apply compute_scaling_bounds_fast.
  apply (all_in_range_within _ _ _ _ Hb). auto.
Qed.

Lemma compute_scaling_bounds_identity_witness :
  let self := init [-1; 1] [-2; 2] [-3; 3] in
  has_bounds self
  /\ within (1 # 2) (beta_dot_b self)
  /\ within 2 (beta_2dot_b self)
  /\ within (-3) (phi_2dot_b self)
  /\ compute_scaling_bounds self (1 # 2) 2 (-3) = Ok (0, 1, 0, 1).
Proof.
  intro self.
  assert (Hb : has_bounds self) by (unfold has_bounds; qcmp).
  assert (H1 : within (1 # 2) (beta_dot_b self)) by (unfold within; qcmp).
  assert (H2 : within 2 (beta_2dot_b self)) by (unfold within; qcmp).
  assert (H3 : within (-3) (phi_2dot_b self)) by (unfold within; qcmp).
  split; [exact Hb|]. split; [exact H1|]. split; [exact H2|].
  split; [exact H3|].
  exact (compute_scaling_bounds_identity self (1 # 2) 2 (-3) Hb H1 H2 H3).
Defined.

(** C5. With [sDot] and [sDotDot] stored in the object, [scale_motion]
    returns [(dbeta * sDot, d2beta * sDot^2 + dbeta * sDotDot,
    dphiDot * sDot)]; for [sDot = 2], [sDotDot = 0.5] and the sample
    [(3, 1, 4)] this is [(6, 5.5, 8)]. *)
Theorem scale_motion_chain_rule
  (b1 b2 b3 : list Q) (sDot sDotDot dbeta d2beta dphiDot : Q) :
  scale_motion (mkTimeScaler b1 b2 b3 (Some sDot) (Some sDotDot))
    dbeta d2beta dphiDot
  = Ok (dbeta * sDot, d2beta * (sDot * sDot) + dbeta * sDotDot,
        dphiDot * sDot)
  /\ scale_motion (mkTimeScaler b1 b2 b3 (Some 2) (Some (1 # 2))) 3 1 4
     = Ok (6, 11 # 2, 8).
Proof. split; reflexivity. Qed.

(** C6. For a four-tuple with [dsLower <= dsUpper] and
    [d2sLower <= d2sUpper], [compute_scaling_parameters] stores exactly
    [sDot = dsUpper] and [sDotDot = d2sUpper], whatever was stored before
    and without touching the bounds, and [scale_motion] then uses the
    values of the most recent such call, also when calls of the other two
    methods lie in between. *)
Theorem compute_scaling_parameters_selects_upper
  (self : TimeScaler) (dsLower dsUpper d2sLower d2sUpper : Q) :
  dsLower <= dsUpper ->
  d2sLower <= d2sUpper ->
  let self' :=
    compute_scaling_parameters self dsLower dsUpper d2sLower d2sUpper in
  s_dot self' = Some dsUpper
  /\ s_2dot self' = Some d2sUpper
  /\ beta_dot_b self' = beta_dot_b self
  /\ beta_2dot_b self' = beta_2dot_b self
  /\ phi_2dot_b self' = phi_2dot_b self
  /\ (forall dbeta d2beta dphiDot,
        scale_motion self' dbeta d2beta dphiDot
        = Ok (dbeta * dsUpper, d2beta * dsUpper ^ 2 + dbeta * d2sUpper,
              dphiDot * dsUpper))
  /\ (forall earlier later dbeta d2beta dphiDot,
        existsb is_parameters later = false ->
        scale_motion
          (run self
             (earlier
              ++ CallParameters dsLower dsUpper d2sLower d2sUpper :: later))
          dbeta d2beta dphiDot
        = Ok (dbeta * dsUpper, d2beta * dsUpper ^ 2 + dbeta * d2sUpper,
              dphiDot * dsUpper)).
Proof.
  intros _ _ self'. repeat split.
  intros earlier later dbeta d2beta dphiDot Hlater.
  rewrite run_app.
  change (run (run self earlier) (CallParameters dsLower dsUpper d2sLower d2sUpper :: later))
    with (run (compute_scaling_parameters (run self earlier)
                 dsLower dsUpper d2sLower d2sUpper) later).
  rewrite (run_without_parameters later _ Hlater). reflexivity.
Qed.

Lemma compute_scaling_parameters_selects_upper_witness :
  let self := mkTimeScaler [-1; 1] [-2; 2] [-3; 3] (Some 1) (Some 1) in
  0 <= 1 # 2
  /\ 0 <= 1 # 4
  /\ s_dot (compute_scaling_parameters self 0 (1 # 2) 0 (1 # 4))
     = Some (1 # 2)
  /\ s_2dot (compute_scaling_parameters self 0 (1 # 2) 0 (1 # 4))
     = Some (1 # 4)
  /\ scale_motion (compute_scaling_parameters self 0 (1 # 2) 0 (1 # 4)) 4 0 0
     = Ok (4 * (1 # 2), 0 * (1 # 2) ^ 2 + 4 * (1 # 4), 0 * (1 # 2)).
Proof.
  intro self.
  assert (H1 : 0 <= 1 # 2) by qcmp.
  assert (H2 : 0 <= 1 # 4) by qcmp.
  pose proof (compute_scaling_parameters_selects_upper
                self 0 (1 # 2) 0 (1 # 4) H1 H2) as (A & B & _ & _ & _ & C & _).
  split; [exact H1|]. split; [exact H2|]. split; [exact A|].
  split; [exact B|]. exact (C 4 0 0).
Defined.

(** C10. On a freshly constructed object [scale_motion] raises (the
    attributes [s_dot] and [s_2dot] do not exist: the constructor sets the
    three bound fields only).  More generally, after any sequence of method
    calls on a fresh object, [scale_motion] raises exactly when the
    sequence contains no call of [compute_scaling_parameters], and returns
    a scaled command otherwise. *)
Theorem scale_motion_before_parameters
  (b1 b2 b3 : list Q) (dbeta d2beta dphiDot : Q) :
  s_dot (init b1 b2 b3) = None
  /\ s_2dot (init b1 b2 b3) = None
  /\ scale_motion (init b1 b2 b3) dbeta d2beta dphiDot = Raise AttributeError
  /\ (forall calls,
        scale_motion (run (init b1 b2 b3) calls) dbeta d2beta dphiDot
        = Raise AttributeError
        <-> existsb is_parameters calls = false)
  /\ (forall calls,
        (exists r,
            scale_motion (run (init b1 b2 b3) calls) dbeta d2beta dphiDot
            = Ok r)
        <-> existsb is_parameters calls = true).
Proof.
  assert (Hno : forall calls, existsb is_parameters calls = false ->
            scale_motion (run (init b1 b2 b3) calls) dbeta d2beta dphiDot
            = Raise AttributeError).
  { intros calls H. rewrite (run_without_parameters calls _ H).
    reflexivity. }
  assert (Hyes : forall calls, existsb is_parameters calls = true ->
            exists r,
              scale_motion (run (init b1 b2 b3) calls) dbeta d2beta dphiDot
              = Ok r).
  { intros calls H.
    destruct (run_with_parameters calls (init b1 b2 b3) H)
      as (sd & sdd & H1 & H2).
    rewrite (scale_motion_stored _ sd sdd _ _ _ H1 H2). eauto. }
  split; [reflexivity|]. split; [reflexivity|]. split; [reflexivity|].
  split; intro calls; split; intro H.
  - destruct (existsb is_parameters calls) eqn:E; [|reflexivity].
    destruct (Hyes calls E) as [r Hr]. congruence.
  - apply Hno, H.
  - destruct (existsb is_parameters calls) eqn:E; [reflexivity|].
    destruct H as [r Hr]. rewrite (Hno calls E) in Hr. discriminate.
  - apply Hyes, H.
Qed.

Lemma scale_motion_before_parameters_witness :
  let calls := [CallBounds 4 0 0; CallScale 4 0 0] in
  let calls' := [CallBounds 4 0 0; CallParameters 0 (1 # 2) 0 (1 # 2)] in
  existsb is_parameters calls = false
  /\ scale_motion (run (init [-1; 1] [-2; 2] [-3; 3]) calls) 4 0 0
     = Raise AttributeError
  /\ existsb is_parameters calls' = true
  /\ exists r,
       scale_motion (run (init [-1; 1] [-2; 2] [-3; 3]) calls') 4 0 0 = Ok r.
Proof.
  intros calls calls'.
  assert (H : existsb is_parameters calls = false) by reflexivity.
  assert (H' : existsb is_parameters calls' = true) by reflexivity.
  destruct (scale_motion_before_parameters [-1; 1] [-2; 2] [-3; 3] 4 0 0)
    as (_ & _ & _ & R & S).
  split; [exact H|]. split; [exact (proj2 (R calls) H)|].
  split; [exact H'|]. exact (proj2 (S calls') H').
Defined.

(** C1. Past the fast path, the rate interval starts at [(0, 1)] and is
    tightened first with the module acceleration bounds [beta_2dot_b] (not
    the rate bounds) unless [dbeta] is ignored, then in the same way with
    the wheel acceleration bounds unless [dphi_dot] is ignored.  The index
    pair is [(1, 0)] for a negative command and [(0, 1)] otherwise; the
    lower end becomes [max(dsLower, bounds[lower] / x)], the upper end
    [min(dsUpper, bounds[upper] / x)].  For the bounds [-1,1], [-2,2],
    [-3,3] and the sample [(4, 0, 0)]: [dsUpper = 0.5], [dsLower = 0]. *)
Theorem compute_scaling_bounds_rate_interval :
  (forall x, x < 0 -> lower_upper x = (1%nat, 0%nat))
  /\ (forall x, ~ x < 0 -> lower_upper x = (0%nat, 1%nat))
  /\ (forall self dbeta d2beta dphiDot,
        has_bounds self ->
        all_in_range self dbeta d2beta dphiDot = Ok false ->
        exists dsLower dsUpper d2sLower d2sUpper l1 u1,
          compute_scaling_bounds self dbeta d2beta dphiDot
          = Ok (dsLower, dsUpper, d2sLower, d2sUpper)
          /\ (ignored dbeta -> l1 = 0 /\ u1 = 1)
          /\ (~ ignored dbeta ->
              tightened (sel (beta_2dot_b self) 0) (sel (beta_2dot_b self) 1)
                dbeta 0 1 l1 u1)
          /\ (ignored dphiDot -> dsLower = l1 /\ dsUpper = u1)
          /\ (~ ignored dphiDot ->
              tightened (sel (phi_2dot_b self) 0) (sel (phi_2dot_b self) 1)
                dphiDot l1 u1 dsLower dsUpper))
  /\ (exists dsLower dsUpper d2sLower d2sUpper,
        compute_scaling_bounds (init [-1; 1] [-2; 2] [-3; 3]) 4 0 0
        = Ok (dsLower, dsUpper, d2sLower, d2sUpper)
        /\ dsUpper == 1 # 2 /\ dsLower == 0).
Proof.
  split; [exact lower_upper_neg|]. split; [exact lower_upper_nonneg|]. split.
  - intros self dbeta d2beta dphiDot Hb Hslow.
    rewrite (compute_scaling_bounds_slow _ _ _ _ Hb Hslow).
    pose proof (slow_path_protocol self dbeta d2beta dphiDot) as P.
    destruct (slow_path self dbeta d2beta dphiDot) as [[[l u] l2] u2].
    destruct P as (l1 & u1 & P1 & P2 & P3 & P4).
    exists l, u, l2, u2, l1, u1. split; [reflexivity|].
    split; [intro H; destruct (P1 H) as (? & ? & _); auto|].
    split; [intro H; apply (P2 H)|]. auto.
  - eexists _, _, _, _. split; [reflexivity|]. split; reflexivity.
Qed.

Lemma compute_scaling_bounds_rate_interval_witness :
  let self := init [-1; 1] [-2; 2] [-3; 3] in
  (-4 < 0 /\ lower_upper (-4) = (1%nat, 0%nat))
  /\ (~ 4 < 0 /\ lower_upper 4 = (0%nat, 1%nat))
  /\ has_bounds self
  /\ all_in_range self 4 0 0 = Ok false
  /\ exists dsLower dsUpper d2sLower d2sUpper l1 u1,
       compute_scaling_bounds self 4 0 0
       = Ok (dsLower, dsUpper, d2sLower, d2sUpper)
       /\ (ignored 4 -> l1 = 0 /\ u1 = 1)
       /\ (~ ignored 4 ->
           tightened (sel (beta_2dot_b self) 0) (sel (beta_2dot_b self) 1)
             4 0 1 l1 u1)
       /\ (ignored 0 -> dsLower = l1 /\ dsUpper = u1)
       /\ (~ ignored 0 ->
           tightened (sel (phi_2dot_b self) 0) (sel (phi_2dot_b self) 1)
             0 l1 u1 dsLower dsUpper).
Proof.
  intro self.
  assert (Hneg : -4 < 0) by reflexivity.
  assert (Hpos : ~ 4 < 0) by (unfold Qlt; simpl; lia).
  assert (Hb : has_bounds self) by (unfold has_bounds; qcmp).
  assert (Hs : all_in_range self 4 0 0 = Ok false) by reflexivity.
  destruct compute_scaling_bounds_rate_interval as (N & P & G & _).
  split; [exact (conj Hneg (N (-4) Hneg))|].
  split; [exact (conj Hpos (P 4 Hpos))|].
  split; [exact Hb|]. split; [exact Hs|].
  exact (G self 4 0 0 Hb Hs).
Defined.

(** C2. Past the fast path and with [dbeta] not ignored, the second-order
    interval is [(0, 1)] tightened at the working point [sDot = dsUpper],
    the upper rate bound that is returned: the lower end becomes
    [max(0, (bounds[lower] - d2beta * sDot^2) / dbeta)], the upper end
    [min(1, (bounds[upper] - d2beta * sDot^2) / dbeta)], with the module
    acceleration bounds and the index pair chosen by the sign of [dbeta].
    With [dbeta] ignored the second-order interval stays [(0, 1)]. *)
Theorem compute_scaling_bounds_acceleration_interval :
  (forall self dbeta d2beta dphiDot,
      has_bounds self ->
      all_in_range self dbeta d2beta dphiDot = Ok false ->
      ~ ignored dbeta ->
      exists dsLower dsUpper d2sLower d2sUpper,
        compute_scaling_bounds self dbeta d2beta dphiDot
        = Ok (dsLower, dsUpper, d2sLower, d2sUpper)
        /\ let sDot := dsUpper in
           tightened (sel (beta_2dot_b self) 0 - d2beta * sDot ^ 2)
             (sel (beta_2dot_b self) 1 - d2beta * sDot ^ 2)
             dbeta 0 1 d2sLower d2sUpper)
  /\ (forall self dbeta d2beta dphiDot,
        has_bounds self ->
        ignored dbeta ->
        exists dsLower dsUpper,
          compute_scaling_bounds self dbeta d2beta dphiDot
          = Ok (dsLower, dsUpper, 0, 1)).
Proof.
  split.
  - intros self dbeta d2beta dphiDot Hb Hslow Hn.
    rewrite (compute_scaling_bounds_slow _ _ _ _ Hb Hslow).
    pose proof (slow_path_protocol self dbeta d2beta dphiDot) as P.
    destruct (slow_path self dbeta d2beta dphiDot) as [[[l u] l2] u2].
    destruct P as (l1 & u1 & _ & P2 & _).
    exists l, u, l2, u2. split; [reflexivity|]. apply (P2 Hn).
  - intros self dbeta d2beta dphiDot Hb Hi.
    destruct (all_in_range_total self dbeta d2beta dphiDot Hb) as [[|] E].
    + rewrite (compute_scaling_bounds_fast _ _ _ _ E). eauto.
    + rewrite (compute_scaling_bounds_slow _ _ _ _ Hb E).
      pose proof (slow_path_protocol self dbeta d2beta dphiDot) as P.
      destruct (slow_path self dbeta d2beta dphiDot) as [[[l u] l2] u2].
      destruct P as (l1 & u1 & P1 & _).
      destruct (P1 Hi) as (_ & _ & -> & ->). eauto.
Qed.

Lemma compute_scaling_bounds_acceleration_interval_witness :
  let self := init [-1; 1] [-2; 2] [-3; 3] in
  has_bounds self
  /\ all_in_range self 4 100 0 = Ok false
  /\ ~ ignored 4
  /\ (exists dsLower dsUpper d2sLower d2sUpper,
        compute_scaling_bounds self 4 100 0
        = Ok (dsLower, dsUpper, d2sLower, d2sUpper)
        /\ tightened (sel (beta_2dot_b self) 0 - 100 * dsUpper ^ 2)
             (sel (beta_2dot_b self) 1 - 100 * dsUpper ^ 2)
             4 0 1 d2sLower d2sUpper)
  /\ ignored (5 # 1000)
  /\ (exists dsLower dsUpper,
        compute_scaling_bounds self (5 # 1000) 100 4
        = Ok (dsLower, dsUpper, 0, 1)).
Proof.
  intro self.
  assert (Hb : has_bounds self) by (unfold has_bounds; qcmp).
  assert (Hs : all_in_range self 4 100 0 = Ok false) by reflexivity.
  assert (Hn : ~ ignored 4) by (unfold ignored, Qle; simpl; lia).
  assert (Hi : ignored (5 # 1000)) by (unfold ignored, Qle; simpl; lia).
  destruct compute_scaling_bounds_acceleration_interval as (G & I).
  split; [exact Hb|]. split; [exact Hs|]. split; [exact Hn|].
  split; [exact (G self 4 100 0 Hb Hs Hn)|].
  split; [exact Hi|].
  exact (I self (5 # 1000) 100 4 Hb Hi).
Defined.

(** C4. A command component within the absolute tolerance [1e-2] of zero
    (such as [dbeta = 0.005]) is left out of its constraint: with [dbeta]
    ignored the returned rate interval is [(0, 1)] on the fast path and
    otherwise [(0, 1)] tightened by the wheel constraint alone, whatever
    [d2beta] and the module acceleration bounds are; likewise with
    [dphi_dot] ignored it is tightened by the module constraint alone.  With
    both ignored and the fast path not taken the result is [(0, 1, 0, 1)],
    also for a large [d2beta]. *)
Theorem compute_scaling_bounds_ignores_small_commands :
  (forall x, isclose x 0 rel_tol_default abs_tol_cmd = true <-> ignored x)
  /\ ignored (5 # 1000)
  /\ (forall self dbeta d2beta dphiDot,
        has_bounds self ->
        ignored dbeta ->
        exists fast dsLower dsUpper d2sLower d2sUpper,
          all_in_range self dbeta d2beta dphiDot = Ok fast
          /\ compute_scaling_bounds self dbeta d2beta dphiDot
             = Ok (dsLower, dsUpper, d2sLower, d2sUpper)
          /\ (fast = true \/ ignored dphiDot -> dsLower = 0 /\ dsUpper = 1)
          /\ (fast = false -> ~ ignored dphiDot ->
              tightened (sel (phi_2dot_b self) 0) (sel (phi_2dot_b self) 1)
                dphiDot 0 1 dsLower dsUpper))
  /\ (forall self dbeta d2beta dphiDot,
        has_bounds self ->
        ignored dphiDot ->
        exists fast dsLower dsUpper d2sLower d2sUpper,
          all_in_range self dbeta d2beta dphiDot = Ok fast
          /\ compute_scaling_bounds self dbeta d2beta dphiDot
             = Ok (dsLower, dsUpper, d2sLower, d2sUpper)
          /\ (fast = true \/ ignored dbeta -> dsLower = 0 /\ dsUpper = 1)
          /\ (fast = false -> ~ ignored dbeta ->
              tightened (sel (beta_2dot_b self) 0) (sel (beta_2dot_b self) 1)
                dbeta 0 1 dsLower dsUpper))
  /\ (forall self dbeta d2beta dphiDot,
        has_bounds self ->
        all_in_range self dbeta d2beta dphiDot = Ok false ->
        ignored dbeta ->
        ignored dphiDot ->
        compute_scaling_bounds self dbeta d2beta dphiDot = Ok (0, 1, 0, 1))
  /\ compute_scaling_bounds (init [-1; 1] [-2; 2] [-3; 3]) (5 # 1000) 1000 0
     = Ok (0, 1, 0, 1).
Proof.
  split; [exact isclose_zero|].
  split; [unfold ignored, Qle; simpl; lia|].
  split; [|split; [|split; [|reflexivity]]].
  - intros self dbeta d2beta dphiDot Hb Hi.
    destruct (all_in_range_total self dbeta d2beta dphiDot Hb) as [[|] E].
    + exists true, 0, 1, 0, 1. split; [exact E|].
      split; [apply compute_scaling_bounds_fast, E|].
      split; [auto|discriminate].
    + rewrite (compute_scaling_bounds_slow _ _ _ _ Hb E).
      pose proof (slow_path_protocol self dbeta d2beta dphiDot) as P.
      destruct (slow_path self dbeta d2beta dphiDot) as [[[l u] l2] u2].
      destruct P as (l1 & u1 & P1 & _ & P3 & P4).
      destruct (P1 Hi) as (-> & -> & _ & _).
      exists false, l, u, l2, u2. split; [exact E|]. split; [reflexivity|].
      split; [intros [H|H]; [discriminate|exact (P3 H)]|].
      intros _ H. exact (P4 H).
  - intros self dbeta d2beta dphiDot Hb Hi.
    destruct (all_in_range_total self dbeta d2beta dphiDot Hb) as [[|] E].
    + exists true, 0, 1, 0, 1. split; [exact E|].
      split; [apply compute_scaling_bounds_fast, E|].
      split; [auto|discriminate].
    + rewrite (compute_scaling_bounds_slow _ _ _ _ Hb E).
      pose proof (slow_path_protocol self dbeta d2beta dphiDot) as P.
      destruct (slow_path self dbeta d2beta dphiDot) as [[[l u] l2] u2].
      destruct P as (l1 & u1 & P1 & P2 & P3 & _).
      destruct (P3 Hi) as (-> & ->).
      exists false, l1, u1, l2, u2. split; [exact E|]. split; [reflexivity|].
      split; [intros [H|H]; [discriminate|]|].
      * destruct (P1 H) as (? & ? & _). auto.
      * intros _ H. exact (proj1 (P2 H)).
  - intros self dbeta d2beta dphiDot Hb E Hi Hj.
    rewrite (compute_scaling_bounds_slow _ _ _ _ Hb E).
    pose proof (slow_path_protocol self dbeta d2beta dphiDot) as P.
    destruct (slow_path self dbeta d2beta dphiDot) as [[[l u] l2] u2].
    destruct P as (l1 & u1 & P1 & _ & P3 & _).
    destruct (P1 Hi) as (-> & -> & -> & ->).
    destruct (P3 Hj) as (-> & ->). reflexivity.
Qed.

Lemma compute_scaling_bounds_ignores_small_commands_witness :
  let self := init [-1; 1] [-2; 2] [-3; 3] in
  has_bounds self
  /\ ignored (5 # 1000)
  /\ ignored 0
  /\ all_in_range self (5 # 1000) 1000 0 = Ok false
  /\ compute_scaling_bounds self (5 # 1000) 1000 0 = Ok (0, 1, 0, 1)
  /\ (exists fast dsLower dsUpper d2sLower d2sUpper,
        all_in_range self (5 # 1000) 1000 4 = Ok fast
        /\ compute_scaling_bounds self (5 # 1000) 1000 4
           = Ok (dsLower, dsUpper, d2sLower, d2sUpper)
        /\ (fast = true \/ ignored 4 -> dsLower = 0 /\ dsUpper = 1)
        /\ (fast = false -> ~ ignored 4 ->
            tightened (sel (phi_2dot_b self) 0) (sel (phi_2dot_b self) 1)
              4 0 1 dsLower dsUpper))
  /\ (exists fast dsLower dsUpper d2sLower d2sUpper,
        all_in_range self 4 1000 0 = Ok fast
        /\ compute_scaling_bounds self 4 1000 0
           = Ok (dsLower, dsUpper, d2sLower, d2sUpper)
        /\ (fast = true \/ ignored 4 -> dsLower = 0 /\ dsUpper = 1)
        /\ (fast = false -> ~ ignored 4 ->
            tightened (sel (beta_2dot_b self) 0) (sel (beta_2dot_b self) 1)
              4 0 1 dsLower dsUpper)).
Proof.
  intro self.
  assert (Hb : has_bounds self) by (unfold has_bounds; qcmp).
  assert (Hi : ignored (5 # 1000)) by (unfold ignored, Qle; simpl; lia).
  assert (Hj : ignored 0) by (unfold ignored, Qle; simpl; lia).
  assert (Hs : all_in_range self (5 # 1000) 1000 0 = Ok false)
    by reflexivity.
  destruct compute_scaling_bounds_ignores_small_commands
    as (_ & _ & B & P & Z & _).
  split; [exact Hb|]. split; [exact Hi|]. split; [exact Hj|].
  split; [exact Hs|].
  split; [exact (Z self (5 # 1000) 1000 0 Hb Hs Hi Hj)|].
  split; [exact (B self (5 # 1000) 1000 4 Hb Hi)|].
  exact (P self 4 1000 0 Hb Hj).
Defined.

(** C7. A crossed interval is a possible result: there are bounds and
    samples with [dsLower > dsUpper], and others with
    [d2sLower > d2sUpper].  The operation never raises for two-element
    bound lists, and a crossed result is returned as computed by the bound
    protocol, without clamping or repair. *)
Theorem compute_scaling_bounds_crossed_interval :
  (exists dsLower dsUpper d2sLower d2sUpper,
      compute_scaling_bounds (init [-1; 1] [1; 2] [-3; 3]) (-4) 0 0
      = Ok (dsLower, dsUpper, d2sLower, d2sUpper)
      /\ dsUpper < dsLower)
  /\ (exists dsLower dsUpper d2sLower d2sUpper,
        compute_scaling_bounds (init [-1; 1] [-2; 2] [-3; 3]) 4 100 0
        = Ok (dsLower, dsUpper, d2sLower, d2sUpper)
        /\ dsLower <= dsUpper /\ d2sUpper < d2sLower)
  /\ (forall self dbeta d2beta dphiDot,
        has_bounds self ->
        exists r, compute_scaling_bounds self dbeta d2beta dphiDot = Ok r)
  /\ (forall self dbeta d2beta dphiDot dsLower dsUpper d2sLower d2sUpper,
        has_bounds self ->
        compute_scaling_bounds self dbeta d2beta dphiDot
        = Ok (dsLower, dsUpper, d2sLower, d2sUpper) ->
        dsUpper < dsLower \/ d2sUpper < d2sLower ->
        all_in_range self dbeta d2beta dphiDot = Ok false
        /\ bound_protocol self dbeta d2beta dphiDot
             (dsLower, dsUpper, d2sLower, d2sUpper)).
Proof.
  split; [|split; [|split]].
  - eexists _, _, _, _. split; [reflexivity|]. reflexivity.
  - eexists _, _, _, _. split; [reflexivity|]. split; [|reflexivity].
    unfold Qle; simpl; lia.
  - exact compute_scaling_bounds_total.
  - intros self dbeta d2beta dphiDot dsLower dsUpper d2sLower d2sUpper
      Hb Hr Hx.
    destruct (all_in_range_total self dbeta d2beta dphiDot Hb) as [[|] E].
    + rewrite (compute_scaling_bounds_fast _ _ _ _ E) in Hr.
      injection Hr as <- <- <- <-.
      exfalso. destruct Hx as [Hx|Hx]; revert Hx; unfold Qlt; simpl; lia.
    + split; [exact E|].
      rewrite (compute_scaling_bounds_slow _ _ _ _ Hb E) in Hr.
      assert (Hr' : (dsLower, dsUpper, d2sLower, d2sUpper)
                    = slow_path self dbeta d2beta dphiDot) by congruence.
      rewrite Hr'. apply slow_path_protocol.
Qed.

Lemma compute_scaling_bounds_crossed_interval_witness :
  let self := init [-1; 1] [-2; 2] [-3; 3] in
  has_bounds self
  /\ (exists r, compute_scaling_bounds self 4 100 0 = Ok r)
  /\ compute_scaling_bounds self 4 100 0
     = Ok (0, 2 / 4, 0, (2 - 100 * (2 / 4) ^ 2) / 4)
  /\ ((2 - 100 * (2 / 4) ^ 2) / 4 < 0)
  /\ all_in_range self 4 100 0 = Ok false
  /\ bound_protocol self 4 100 0
       (0, 2 / 4, 0, (2 - 100 * (2 / 4) ^ 2) / 4).
Proof.
  intro self.
  assert (Hb : has_bounds self) by (unfold has_bounds; qcmp).
  assert (Hr : compute_scaling_bounds self 4 100 0
               = Ok (0, 2 / 4, 0, (2 - 100 * (2 / 4) ^ 2) / 4))
    by reflexivity.
  assert (Hx : (2 - 100 * (2 / 4) ^ 2) / 4 < 0) by reflexivity.
  destruct compute_scaling_bounds_crossed_interval as (_ & _ & T & P).
  split; [exact Hb|]. split; [exact (T self 4 100 0 Hb)|].
  split; [exact Hr|]. split; [exact Hx|].
  exact (P self 4 100 0 _ _ _ _ Hb Hr (or_intror Hx)).
Defined.

(** C9. The four returned values satisfy [dsLower >= 0], [dsUpper <= 1],
    [d2sLower >= 0] and [d2sUpper <= 1].  Hence, when both intervals are
    non-empty, the selected [sDot] and [sDotDot] lie in [0, 1], and the
    scaled rate and wheel acceleration are no larger in magnitude than the
    raw commands. *)
Theorem compute_scaling_bounds_unit_interval
  (self : TimeScaler) (dbeta d2beta dphiDot : Q) :
  has_bounds self ->
  exists dsLower dsUpper d2sLower d2sUpper,
    compute_scaling_bounds self dbeta d2beta dphiDot
    = Ok (dsLower, dsUpper, d2sLower, d2sUpper)
    /\ 0 <= dsLower /\ dsUpper <= 1 /\ 0 <= d2sLower /\ d2sUpper <= 1
    /\ (dsLower <= dsUpper ->
        d2sLower <= d2sUpper ->
        let self' :=
          compute_scaling_parameters self dsLower dsUpper d2sLower d2sUpper in
        exists sDot sDotDot betaDot betaAccel phiAccel,
          s_dot self' = Some sDot
          /\ s_2dot self' = Some sDotDot
          /\ 0 <= sDot /\ sDot <= 1
          /\ 0 <= sDotDot /\ sDotDot <= 1
          /\ scale_motion self' dbeta d2beta dphiDot
             = Ok (betaDot, betaAccel, phiAccel)
          /\ Qabs betaDot <= Qabs dbeta
          /\ Qabs phiAccel <= Qabs dphiDot).
Proof.
  intro Hb.
  assert (H : exists l u l2 u2,
             compute_scaling_bounds self dbeta d2beta dphiDot
             = Ok (l, u, l2, u2)
             /\ 0 <= l /\ u <= 1 /\ 0 <= l2 /\ u2 <= 1).
  { destruct (all_in_range_total self dbeta d2beta dphiDot Hb) as [[|] E].
    - rewrite (compute_scaling_bounds_fast _ _ _ _ E).
      exists 0, 1, 0, 1. qcmp.
    - rewrite (compute_scaling_bounds_slow _ _ _ _ Hb E).
      pose proof (slow_path_unit self dbeta d2beta dphiDot) as U.
      destruct (slow_path self dbeta d2beta dphiDot) as [[[l u] l2] u2].
      exists l, u, l2, u2. split; [reflexivity|exact U]. }
  destruct H as (l & u & l2 & u2 & Hr & H0 & H1 & H2 & H3).
  exists l, u, l2, u2. split; [exact Hr|]. repeat (split; [assumption|]).
  intros Hlu Hlu2 self'.
  assert (A : 0 <= u) by (apply (Qle_trans _ l); assumption).
  assert (B : 0 <= u2) by (apply (Qle_trans _ l2); assumption).
  exists u, u2, (dbeta * u), (d2beta * u ^ 2 + dbeta * u2), (dphiDot * u).
  repeat (split; [first [reflexivity|assumption]|]).
  split; apply scaled_magnitude; assumption.
Qed.

Lemma compute_scaling_bounds_unit_interval_witness :
  let self := init [-1; 1] [-2; 2] [-3; 3] in
  has_bounds self
  /\ exists dsLower dsUpper d2sLower d2sUpper,
       compute_scaling_bounds self 4 0 0
       = Ok (dsLower, dsUpper, d2sLower, d2sUpper)
       /\ 0 <= dsLower /\ dsUpper <= 1 /\ 0 <= d2sLower /\ d2sUpper <= 1
       /\ dsLower <= dsUpper /\ d2sLower <= d2sUpper
       /\ exists sDot sDotDot betaDot betaAccel phiAccel,
            s_dot (compute_scaling_parameters self
                     dsLower dsUpper d2sLower d2sUpper) = Some sDot
            /\ s_2dot (compute_scaling_parameters self
                         dsLower dsUpper d2sLower d2sUpper) = Some sDotDot
            /\ 0 <= sDot /\ sDot <= 1
            /\ 0 <= sDotDot /\ sDotDot <= 1
            /\ scale_motion (compute_scaling_parameters self
                               dsLower dsUpper d2sLower d2sUpper) 4 0 0
               = Ok (betaDot, betaAccel, phiAccel)
            /\ Qabs betaDot <= Qabs 4
            /\ Qabs phiAccel <= Qabs 0.
Proof.
  intro self.
  assert (Hb : has_bounds self) by (unfold has_bounds; qcmp).
  split; [exact Hb|].
  destruct (compute_scaling_bounds_unit_interval self 4 0 0 Hb)
    as (l & u & l2 & u2 & Hr & H0 & H1 & H2 & H3 & K).
  assert (E : (l, u, l2, u2) = (0, 2 / 4, 0, (2 - 0 * (2 / 4) ^ 2) / 4)).
  { assert (E : Ok (l, u, l2, u2)
                = Ok (0, 2 / 4, 0, (2 - 0 * (2 / 4) ^ 2) / 4))
      by (rewrite <- Hr; reflexivity).
    injection E as -> -> -> ->. reflexivity. }
  assert (Hlu : l <= u).
  { injection E as -> -> -> ->. unfold Qle. simpl. lia. }
  assert (Hlu2 : l2 <= u2).
  { injection E as -> -> -> ->. unfold Qle. simpl. lia. }
  exists l, u, l2, u2.
  repeat (split; [assumption|]).
  exact (K Hlu Hlu2).
Defined.

(** C8, as the code has it.  With the sample held fixed and every bound
    interval widened (or kept), the rate interval [dsLower, dsUpper] under
    the wider bounds contains the one under the original bounds.  The
    second-order interval [d2sLower, d2sUpper] does so as well when the
    term [d2beta * dsUpper^2] of the working point is the same under both
    bound sets; it need not otherwise, since a larger [dsUpper] moves the
    working point. *)
Theorem widening_keeps_rate_interval
  (self wide : TimeScaler) (dbeta d2beta dphiDot : Q) :
  widens self wide ->
  exists dsLower dsUpper d2sLower d2sUpper
         dsLower' dsUpper' d2sLower' d2sUpper',
    compute_scaling_bounds self dbeta d2beta dphiDot
    = Ok (dsLower, dsUpper, d2sLower, d2sUpper)
    /\ compute_scaling_bounds wide dbeta d2beta dphiDot
       = Ok (dsLower', dsUpper', d2sLower', d2sUpper')
    /\ dsLower' <= dsLower /\ dsUpper <= dsUpper'
    /\ (d2beta * dsUpper' ^ 2 == d2beta * dsUpper ^ 2 ->
        d2sLower' <= d2sLower /\ d2sUpper <= d2sUpper').
Proof.
  intro W. destruct (widens_has_bounds _ _ W) as [Hs Hw].
  destruct (all_in_range_total wide dbeta d2beta dphiDot Hw) as [[|] Ew].
  - rewrite (compute_scaling_bounds_fast _ _ _ _ Ew).
    destruct (compute_scaling_bounds_total self dbeta d2beta dphiDot Hs)
      as [[[[l u] l2] u2] Er].
    assert (U : 0 <= l /\ u <= 1 /\ 0 <= l2 /\ u2 <= 1).
    { destruct (all_in_range_total self dbeta d2beta dphiDot Hs) as [[|] Es].
      - rewrite (compute_scaling_bounds_fast _ _ _ _ Es) in Er.
        injection Er as <- <- <- <-. qcmp.
      - rewrite (compute_scaling_bounds_slow _ _ _ _ Hs Es) in Er.
        pose proof (slow_path_unit self dbeta d2beta dphiDot) as U.
        assert (Er' : slow_path self dbeta d2beta dphiDot = (l, u, l2, u2))
          by congruence.
        rewrite Er' in U. exact U. }
    exists l, u, l2, u2, 0, 1, 0, 1. rewrite Er. tauto.
  - destruct (all_in_range_total self dbeta d2beta dphiDot Hs) as [[|] Es].
    + exfalso.
      apply (all_in_range_within _ _ _ _ Hs) in Es.
      destruct Es as (A & B & C). destruct W as (W1 & W2 & W3).
      assert (Ew' : all_in_range wide dbeta d2beta dphiDot = Ok true).
      { apply (all_in_range_within _ _ _ _ Hw).
        repeat split; eapply within_widens; eassumption. }
      congruence.
    + rewrite (compute_scaling_bounds_slow _ _ _ _ Hs Es).
      rewrite (compute_scaling_bounds_slow _ _ _ _ Hw Ew).
      pose proof (slow_path_widens self wide dbeta d2beta dphiDot W) as M.
      destruct (slow_path self dbeta d2beta dphiDot) as [[[l u] l2] u2].
      destruct (slow_path wide dbeta d2beta dphiDot) as [[[l' u'] l2'] u2'].
      exists l, u, l2, u2, l', u', l2', u2'. tauto.
Qed.

Lemma widening_keeps_rate_interval_witness :
  let self := init [-1; 1] [-2; 2] [-1; 1] in
  let wide := init [-1; 1] [-2; 2] [-3; 3] in
  widens self wide
  /\ exists dsLower dsUpper d2sLower d2sUpper
            dsLower' dsUpper' d2sLower' d2sUpper',
       compute_scaling_bounds self 4 0 4
       = Ok (dsLower, dsUpper, d2sLower, d2sUpper)
       /\ compute_scaling_bounds wide 4 0 4
          = Ok (dsLower', dsUpper', d2sLower', d2sUpper')
       /\ dsLower' <= dsLower /\ dsUpper <= dsUpper'
       /\ (0 * dsUpper' ^ 2 == 0 * dsUpper ^ 2 ->
           d2sLower' <= d2sLower /\ d2sUpper <= d2sUpper').
Proof.
  intros self wide.
  assert (W : widens self wide)
    by (unfold widens, widens_rng, ordered; qcmp).
  split; [exact W|].
  exact (widening_keeps_rate_interval self wide 4 0 4 W).
Defined.

(** C8, as stated, fails for the second-order interval.  Widening the wheel
    acceleration bounds from [-1, 1] to [-3, 3] for the sample [(4, 4, 4)]
    raises [dsUpper] from 1/4 to 1/2, which moves the working point and
    lowers [d2sUpper] from 7/16 to 1/4: the interval [0, 7/16] of the
    original bounds is not contained in the interval [0, 1/4] of the wider
    ones. *)
Lemma widening_shrinks_acceleration_interval :
  let self := init [-1; 1] [-2; 2] [-1; 1] in
  let wide := init [-1; 1] [-2; 2] [-3; 3] in
  widens self wide
  /\ exists dsLower dsUpper d2sLower d2sUpper
            dsLower' dsUpper' d2sLower' d2sUpper',
       compute_scaling_bounds self 4 4 4
       = Ok (dsLower, dsUpper, d2sLower, d2sUpper)
       /\ compute_scaling_bounds wide 4 4 4
          = Ok (dsLower', dsUpper', d2sLower', d2sUpper')
       /\ dsUpper == 1 # 4 /\ dsUpper' == 1 # 2
       /\ d2sLower == 0 /\ d2sUpper == 7 # 16
       /\ d2sLower' == 0 /\ d2sUpper' == 1 # 4
       /\ ~ (d2sLower' <= d2sLower /\ d2sUpper <= d2sUpper').
Proof.
  intros self wide.
  split; [unfold widens, widens_rng, ordered; qcmp|].
  eexists _, _, _, _, _, _, _, _.
  split; [reflexivity|]. split; [reflexivity|].
  repeat (split; [reflexivity|]).
  intros [_ H]. revert H. unfold Qle. simpl. lia.
Qed.

(** ** Errors of the range test and of the bound computation *)


(** X1. [in_range] raises exactly when the bound list is empty, or has one
    element that does not exceed the value (the second element is then
    asked for); it raises nothing but [IndexError]; and it answers true
    exactly when the list starts with a minimum and a maximum that enclose
    the value. *)
Theorem in_range_cases (value : Q) (rng : list Q) :
  (in_range value rng = Raise IndexError
   <-> rng = [] \/ exists lo, rng = [lo] /\ lo <= value)
  /\ (forall e, in_range value rng = Raise e -> e = IndexError)
  /\ (in_range value rng = Ok true
      <-> exists lo hi rest,
            rng = lo :: hi :: rest /\ lo <= value /\ value <= hi).
Proof.
  unfold in_range, index.
  destruct rng as [|lo [|hi rest]]; cbn [nth_error bind ret].
  - split; [|split].
    + split; auto.
    + intros e H. congruence.
    + split; [discriminate|]. intros (lo & hi & rest & H & _). discriminate.
  - destruct (Qle_bool lo value) eqn:E; cbn [bind].
    + apply Qle_bool_iff in E. split; [|split].
      * split; [|reflexivity]. intros _. right. exists lo. auto.
      * intros e H. congruence.
      * split; [discriminate|]. intros (? & ? & ? & H & _). discriminate.
    + split; [|split].
      * split; [discriminate|]. intros [H|(lo' & H & Hle)]; [discriminate|].
        injection H as <-. apply Qle_bool_iff in Hle. congruence.
      * intros e H. discriminate.
      * split; [discriminate|]. intros (? & ? & ? & H & _). discriminate.
  - split; [|split].
    + split.
      * destruct (Qle_bool lo value); discriminate.
      * intros [H|(? & H & _)]; discriminate.
    + intros e. destruct (Qle_bool lo value); discriminate.
    + split.
      * intro H. exists lo, hi, rest. split; [reflexivity|].
        rewrite <- !Qle_bool_iff.
        destruct (Qle_bool lo value); [|discriminate].
        injection H as ->. auto.
      * intros (lo' & hi' & rest' & H & H1 & H2).
        injection H as <- <- <-.
        apply Qle_bool_iff in H1, H2. rewrite H1, H2. reflexivity.
Qed.

Lemma in_range_cases_witness :
  in_range 0 [-1] = Raise IndexError
  /\ (exists lo hi rest,
        [-1; 1; 7] = lo :: hi :: rest /\ lo <= 1 /\ 1 <= hi).
Proof.
  destruct (in_range_cases 0 [-1]) as (A & _ & _).
  destruct (in_range_cases 1 [-1; 1; 7]) as (_ & _ & C).
  split.
  - apply (proj2 A). right. exists (-1). split; [reflexivity|].
    unfold Qle. simpl. lia.
  - apply (proj1 C). reflexivity.
Defined.




(** ** What the returned intervals guarantee *)







Lemma slow_result_protocol
  (self : TimeScaler) (dbeta d2beta dphi_dot : Q) (r : Q * Q * Q * Q) :
  has_bounds self ->
  all_in_range self dbeta d2beta dphi_dot = Ok false ->
  compute_scaling_bounds self dbeta d2beta dphi_dot = Ok r ->
  bound_protocol self dbeta d2beta dphi_dot r.
Proof.
  intros Hb Hs Hr.
  rewrite (compute_scaling_bounds_slow _ _ _ _ Hb Hs) in Hr.
  assert (E : r = slow_path self dbeta d2beta dphi_dot) by congruence.
  rewrite E. apply slow_path_protocol.
Qed.

Lemma ignored_dec (x : Q) : ignored x \/ ~ ignored x.
Proof.
  unfold ignored. destruct (Qlt_le_dec (1 # 100) (Qabs x)) as [H|H].
  - right. apply Qlt_not_le, H.
  - left. exact H.
Qed.










(** ** Bounds that contain zero *)

Lemma tightened_from_zero (n0 n1 x l u l' u' : Q) :
  tightened n0 n1 x l u l' u' ->
  ~ ignored x ->
  n0 <= 0 ->
  0 <= n1 ->
  l == 0 ->
  0 <= u ->
  l' == 0 /\ 0 <= u'.
Proof.
  intros [Hneg Hpos] Hx H0 H1 Hl Hu.
  assert (Z : forall d, 0 / d == 0) by (intro d; unfold Qdiv; ring).
  destruct (not_ignored_sign x Hx) as [H|H].
  - destruct (Hneg H) as [-> ->]. rewrite Hl. split.
    + apply Q.max_l. rewrite <- (Z x). apply Qdiv_le_neg; assumption.
    + apply Q.min_glb; [exact Hu|].
      rewrite <- (Z x). apply Qdiv_le_neg; assumption.
  - assert (Hnn : ~ x < 0) by (intro; lra).
    destruct (Hpos Hnn) as [-> ->]. rewrite Hl. split.
    + apply Q.max_l. rewrite <- (Z x). apply Qdiv_le_pos; assumption.
    + apply Q.min_glb; [exact Hu|].
      rewrite <- (Z x). apply Qdiv_le_pos; assumption.
Qed.

(** X7. When the module and the wheel acceleration bounds both contain
    zero, the returned rate interval is never empty: [dsLower] is zero and
    [dsUpper] is not negative, for every sample. *)
Theorem rate_interval_not_empty
  (self : TimeScaler) (dbeta d2beta dphi_dot : Q) :
  has_bounds self ->
  within 0 (beta_2dot_b self) ->
  within 0 (phi_2dot_b self) ->
  exists dsLower dsUpper d2sLower d2sUpper,
    compute_scaling_bounds self dbeta d2beta dphi_dot
    = Ok (dsLower, dsUpper, d2sLower, d2sUpper)
    /\ dsLower == 0 /\ 0 <= dsUpper.
Proof.
  intros Hb [B0 B1] [P0 P1].
  destruct (all_in_range_total self dbeta d2beta dphi_dot Hb) as [[|] E].
  - rewrite (compute_scaling_bounds_fast _ _ _ _ E).
    exists 0, 1, 0, 1. qcmp.
  - destruct (compute_scaling_bounds_total self dbeta d2beta dphi_dot Hb)
      as [[[[l u] l2] u2] Hr].
    exists l, u, l2, u2. split; [exact Hr|].
    destruct (slow_result_protocol _ _ _ _ _ Hb E Hr)
      as (l1 & u1 & Q1 & Q2 & Q3 & Q4).
    assert (S1 : l1 == 0 /\ 0 <= u1).
    { destruct (ignored_dec dbeta) as [Hi|Hi].
      - destruct (Q1 Hi) as (-> & -> & _). qcmp.
      - destruct (Q2 Hi) as [T _].
        apply (tightened_from_zero _ _ _ _ _ _ _ T Hi B0 B1); qcmp. }
    destruct S1 as [S1 S2].
    destruct (ignored_dec dphi_dot) as [Hi|Hi].
    + destruct (Q3 Hi) as [-> ->]. auto.
    + exact (tightened_from_zero _ _ _ _ _ _ _ (Q4 Hi) Hi P0 P1 S1 S2).
Qed.

Lemma rate_interval_not_empty_witness :
  let self := init [-1; 1] [-2; 2] [-3; 3] in
  has_bounds self
  /\ within 0 (beta_2dot_b self)
  /\ within 0 (phi_2dot_b self)
  /\ exists dsLower dsUpper d2sLower d2sUpper,
       compute_scaling_bounds self (-4) 100 4
       = Ok (dsLower, dsUpper, d2sLower, d2sUpper)
       /\ dsLower == 0 /\ 0 <= dsUpper.
Proof.
  intro self.
  assert (Hb : has_bounds self) by (unfold has_bounds; qcmp).
  assert (H1 : within 0 (beta_2dot_b self)) by (unfold within; qcmp).
  assert (H2 : within 0 (phi_2dot_b self)) by (unfold within; qcmp).
  do 3 (split; [assumption|]).
  exact (rate_interval_not_empty self (-4) 100 4 Hb H1 H2).
Defined.

(** ** Reflection at zero *)

Lemma Qle_bool_opp (a b : Q) : Qle_bool (- a) (- b) = Qle_bool b a.
Proof.
  destruct (Qle_bool b a) eqn:E.
  - apply Qle_bool_iff in E. apply Qle_bool_iff. lra.
  - destruct (Qle_bool (- a) (- b)) eqn:E'; [|reflexivity].
    apply Qle_bool_iff in E'.
    assert (H : b <= a) by lra. apply Qle_bool_iff in H. congruence.
Qed.

Lemma ignored_opp (x : Q) : ignored (- x) <-> ignored x.
Proof. unfold ignored. rewrite Qabs_opp. reflexivity. Qed.

Lemma isclose_opp (x : Q) :
  isclose (- x) 0 rel_tol_default abs_tol_cmd
  = isclose x 0 rel_tol_default abs_tol_cmd.
Proof.
  destruct (isclose x 0 rel_tol_default abs_tol_cmd) eqn:E.
  - apply isclose_zero. apply ignored_opp. apply isclose_zero. exact E.
  - apply isclose_zero_false. rewrite ignored_opp.
    apply isclose_zero_false. exact E.
Qed.

Lemma sel_mirror_0 (rng : list Q) : sel (mirror rng) 0 = - sel rng 1.
Proof. reflexivity. Qed.

Lemma sel_mirror_1 (rng : list Q) : sel (mirror rng) 1 = - sel rng 0.
Proof. reflexivity. Qed.

Lemma mirrored_has_bounds (self : TimeScaler) : has_bounds (mirrored self).
Proof. unfold has_bounds, two_bounds. simpl. lia. Qed.

Lemma all_in_range_mirrored (self : TimeScaler) (dbeta d2beta dphi_dot : Q) :
  has_bounds self ->
  all_in_range (mirrored self) (- dbeta) (- d2beta) (- dphi_dot)
  = all_in_range self dbeta d2beta dphi_dot.
Proof.
  intro Hb.
  rewrite (all_in_range_sel _ _ _ _ Hb).
  rewrite (all_in_range_sel _ _ _ _ (mirrored_has_bounds self)).
  cbn [mirrored beta_dot_b beta_2dot_b phi_2dot_b].
  rewrite !sel_mirror_0, !sel_mirror_1, !Qle_bool_opp.
  f_equal. f_equal; [f_equal|]; apply andb_comm.
Qed.

Lemma step_mirror (f g : nat -> Q) (x l l' u u' : Q) :
  ~ ignored x ->
  g 0%nat == - f 1%nat ->
  g 1%nat == - f 0%nat ->
  l == l' ->
  u == u' ->
  py_max l (f (fst (lower_upper x)) / x)
  == py_max l' (g (fst (lower_upper (- x))) / (- x))
  /\ py_min u (f (snd (lower_upper x)) / x)
     == py_min u' (g (snd (lower_upper (- x))) / (- x)).
Proof.
  intros Hx H0 H1 Hl Hu. rewrite !py_max_Qmax, !py_min_Qmin.
  destruct (not_ignored_sign x Hx) as [H|H].
  - assert (Hn : ~ x == 0) by (intro E; rewrite E in H; discriminate).
    assert (H' : ~ - x < 0) by (intro; lra).
    rewrite (lower_upper_neg x H), (lower_upper_nonneg (- x) H').
    cbn [fst snd]. split.
    + apply Q.max_compat; [exact Hl|]. rewrite H0. field. exact Hn.
    + apply Q.min_compat; [exact Hu|]. rewrite H1. field. exact Hn.
  - assert (Hn : ~ x == 0) by (intro E; rewrite E in H; discriminate).
    assert (H' : ~ x < 0) by (intro; lra).
    assert (H'' : - x < 0) by lra.
    rewrite (lower_upper_nonneg x H'), (lower_upper_neg (- x) H'').
    cbn [fst snd]. split.
    + apply Q.max_compat; [exact Hl|]. rewrite H1. field. exact Hn.
    + apply Q.min_compat; [exact Hu|]. rewrite H0. field. exact Hn.
Qed.

Lemma slow_path_mirrored (self : TimeScaler) (dbeta d2beta dphi_dot : Q) :
  same_bounds (slow_path self dbeta d2beta dphi_dot)
    (slow_path (mirrored self) (- dbeta) (- d2beta) (- dphi_dot)).
Proof.
  unfold same_bounds, slow_path. rewrite !isclose_opp.
  cbn [mirrored beta_2dot_b phi_2dot_b].
  destruct (isclose dbeta 0 rel_tol_default abs_tol_cmd) eqn:Eb;
    destruct (isclose dphi_dot 0 rel_tol_default abs_tol_cmd) eqn:Ep;
    cbv zeta.
  - repeat split; reflexivity.
  - apply isclose_zero_false in Ep.
    destruct (step_mirror (sel (phi_2dot_b self))
                (sel (mirror (phi_2dot_b self))) dphi_dot 0 0 1 1 Ep)
      as [A B]; try reflexivity.
    repeat split; try assumption; reflexivity.
  - apply isclose_zero_false in Eb.
    destruct (step_mirror (sel (beta_2dot_b self))
                (sel (mirror (beta_2dot_b self))) dbeta 0 0 1 1 Eb)
      as [A B]; try reflexivity.
    split; [exact A|]. split; [exact B|].
    apply (step_mirror
             (fun i => sel (beta_2dot_b self) i - d2beta * _ ^ 2)
             (fun i => sel (mirror (beta_2dot_b self)) i - - d2beta * _ ^ 2)
             dbeta 0 0 1 1 Eb); try reflexivity; cbv beta.
    + rewrite sel_mirror_0, <- B. ring.
    + rewrite sel_mirror_1, <- B. ring.
  - apply isclose_zero_false in Eb, Ep.
    destruct (step_mirror (sel (beta_2dot_b self))
                (sel (mirror (beta_2dot_b self))) dbeta 0 0 1 1 Eb)
      as [A B]; try reflexivity.
    destruct (step_mirror (sel (phi_2dot_b self))
                (sel (mirror (phi_2dot_b self))) dphi_dot _ _ _ _ Ep
                (Qeq_refl _) (Qeq_refl _) A B)
      as [C D].
    split; [exact C|]. split; [exact D|].
    apply (step_mirror
             (fun i => sel (beta_2dot_b self) i - d2beta * _ ^ 2)
             (fun i => sel (mirror (beta_2dot_b self)) i - - d2beta * _ ^ 2)
             dbeta 0 0 1 1 Eb); try reflexivity; cbv beta.
    + rewrite sel_mirror_0, <- D. ring.
    + rewrite sel_mirror_1, <- D. ring.
Qed.

(** X8. Reflecting every bound interval at zero ([[lo, hi]] becomes
    [[-hi, -lo]]) and negating the three commands leaves the four returned
    bounds numerically unchanged: the index swap for a negative command
    mirrors the computation for a positive one. *)
Theorem compute_scaling_bounds_mirror
  (self : TimeScaler) (dbeta d2beta dphi_dot : Q) :
  has_bounds self ->
  exists r r',
    compute_scaling_bounds self dbeta d2beta dphi_dot = Ok r
    /\ compute_scaling_bounds (mirrored self)
         (- dbeta) (- d2beta) (- dphi_dot) = Ok r'
    /\ same_bounds r r'.
Proof.
  intro Hb.
  pose proof (all_in_range_mirrored self dbeta d2beta dphi_dot Hb) as Em.
  destruct (all_in_range_total self dbeta d2beta dphi_dot Hb) as [[|] E];
    rewrite E in Em.
  - exists (0, 1, 0, 1), (0, 1, 0, 1).
    rewrite (compute_scaling_bounds_fast _ _ _ _ E).
    rewrite (compute_scaling_bounds_fast _ _ _ _ Em).
    repeat split; reflexivity.
  - rewrite (compute_scaling_bounds_slow _ _ _ _ Hb E).
    rewrite (compute_scaling_bounds_slow _ _ _ _ (mirrored_has_bounds self) Em).
    eexists _, _. split; [reflexivity|]. split; [reflexivity|].
    apply slow_path_mirrored.
Qed.

Lemma compute_scaling_bounds_mirror_witness :
  let self := init [-1; 1] [-2; 3] [-3; 4] in
  has_bounds self
  /\ compute_scaling_bounds self 4 1 4 = Ok (0, 3 # 4, 0, 39 # 64)
  /\ compute_scaling_bounds (init [-1; 1] [-3; 2] [-4; 3]) (-4) (-1) (-4)
     = Ok (0, 3 # 4, 0, 39 # 64)
  /\ exists r r',
       compute_scaling_bounds self 4 1 4 = Ok r
       /\ compute_scaling_bounds (mirrored self) (- 4) (- 1) (- 4) = Ok r'
       /\ same_bounds r r'.
Proof.
  intro self.
  assert (Hb : has_bounds self) by (unfold has_bounds; qcmp).
  split; [exact Hb|]. split; [reflexivity|]. split; [reflexivity|].
  exact (compute_scaling_bounds_mirror self 4 1 4 Hb).
Defined.

(** ** The role of the rate bounds *)


(** X9. The module rate bounds [beta_dot_b] take part in the fast-path
    test only: two objects that differ in them alone return the same
    result for every sample on which neither takes the fast path. *)
Theorem rate_bounds_gate_only
  (self : TimeScaler) (rate_bounds : list Q) (dbeta d2beta dphi_dot : Q) :
  let other :=
    mkTimeScaler rate_bounds (beta_2dot_b self) (phi_2dot_b self)
      (s_dot self) (s_2dot self) in
  has_bounds self ->
  two_bounds rate_bounds ->
  all_in_range self dbeta d2beta dphi_dot = Ok false ->
  all_in_range other dbeta d2beta dphi_dot = Ok false ->
  compute_scaling_bounds other dbeta d2beta dphi_dot
  = compute_scaling_bounds self dbeta d2beta dphi_dot.
Proof.
  intros other Hb Hr Hs Ho.
  assert (Hb' : has_bounds other).
  { destruct Hb as (_ & B & P). split; [exact Hr|]. split; assumption. }
  rewrite (compute_scaling_bounds_slow _ _ _ _ Hb Hs).
  rewrite (compute_scaling_bounds_slow _ _ _ _ Hb' Ho).
  reflexivity.
Qed.

Lemma rate_bounds_gate_only_witness :
  let self := init [-1; 1] [-2; 2] [-3; 3] in
  has_bounds self
  /\ two_bounds [-3; 3]
  /\ all_in_range self 4 1 4 = Ok false
  /\ all_in_range (init [-3; 3] [-2; 2] [-3; 3]) 4 1 4 = Ok false
  /\ compute_scaling_bounds (init [-3; 3] [-2; 2] [-3; 3]) 4 1 4
     = compute_scaling_bounds self 4 1 4.
Proof.
  intro self.
  assert (Hb : has_bounds self) by (unfold has_bounds; qcmp).
  assert (Hr : two_bounds [-3; 3]) by qcmp.
  assert (Hs : all_in_range self 4 1 4 = Ok false) by reflexivity.
  assert (Ho : all_in_range (init [-3; 3] [-2; 2] [-3; 3]) 4 1 4 = Ok false)
    by reflexivity.
  do 4 (split; [assumption|]).
  exact (rate_bounds_gate_only self [-3; 3] 4 1 4 Hb Hr Hs Ho).
Defined.



(** ** The fast path through the three methods *)

(** X11. When all three commands lie within their bounds, the three
    methods in sequence store [sDot = 1] and [sDotDot = 1]: the module rate
    and the wheel acceleration pass through unchanged, while the module
    acceleration comes out as [d2beta + dbeta], which is outside the
    module acceleration bounds whenever that sum exceeds their maximum. *)
Theorem fast_path_command
  (self : TimeScaler) (dbeta d2beta dphi_dot : Q) :
  has_bounds self ->
  within dbeta (beta_dot_b self) ->
  within d2beta (beta_2dot_b self) ->
  within dphi_dot (phi_2dot_b self) ->
  exists dsLower dsUpper d2sLower d2sUpper beta_dot beta_2dot phi_2dot,
    compute_scaling_bounds self dbeta d2beta dphi_dot
    = Ok (dsLower, dsUpper, d2sLower, d2sUpper)
    /\ scale_motion
         (compute_scaling_parameters self dsLower dsUpper d2sLower d2sUpper)
         dbeta d2beta dphi_dot
       = Ok (beta_dot, beta_2dot, phi_2dot)
    /\ beta_dot == dbeta
    /\ phi_2dot == dphi_dot
    /\ beta_2dot == d2beta + dbeta
    /\ (sel (beta_2dot_b self) 1 < d2beta + dbeta ->
        ~ within beta_2dot (beta_2dot_b self)).
Proof.
  intros Hb H1 H2 H3.
  assert (E : all_in_range self dbeta d2beta dphi_dot = Ok true)
    by (apply (all_in_range_within _ _ _ _ Hb); auto).
  exists 0, 1, 0, 1, (dbeta * 1), (d2beta * 1 ^ 2 + dbeta * 1), (dphi_dot * 1).
  split; [apply compute_scaling_bounds_fast, E|].
  split; [reflexivity|].
  assert (Ea : d2beta * 1 ^ 2 + dbeta * 1 == d2beta + dbeta) by ring.
  split; [ring|]. split; [ring|]. split; [exact Ea|].
  unfold within. rewrite Ea. intros Hgt [_ Hle].
  apply (Qlt_not_le _ _ Hgt). exact Hle.
Qed.

Lemma fast_path_command_witness :
  let self := init [-1; 1] [-2; 2] [-3; 3] in
  has_bounds self
  /\ within 1 (beta_dot_b self)
  /\ within 2 (beta_2dot_b self)
  /\ within 0 (phi_2dot_b self)
  /\ exists dsLower dsUpper d2sLower d2sUpper beta_dot beta_2dot phi_2dot,
       compute_scaling_bounds self 1 2 0
       = Ok (dsLower, dsUpper, d2sLower, d2sUpper)
       /\ scale_motion
            (compute_scaling_parameters self
               dsLower dsUpper d2sLower d2sUpper) 1 2 0
          = Ok (beta_dot, beta_2dot, phi_2dot)
       /\ beta_dot == 1
       /\ phi_2dot == 0
       /\ beta_2dot == 2 + 1
       /\ ~ within beta_2dot (beta_2dot_b self).
Proof.
  intro self.
  assert (Hb : has_bounds self) by (unfold has_bounds; qcmp).
  assert (H1 : within 1 (beta_dot_b self)) by (unfold within; qcmp).
  assert (H2 : within 2 (beta_2dot_b self)) by (unfold within; qcmp).
  assert (H3 : within 0 (phi_2dot_b self)) by (unfold within; qcmp).
  assert (H4 : sel (beta_2dot_b self) 1 < 2 + 1) by reflexivity.
  do 4 (split; [assumption|]).
  destruct (fast_path_command self 1 2 0 Hb H1 H2 H3)
    as (l & u & l2 & u2 & bd & ba & pa & A & B & C & D & E & F).
  exists l, u, l2, u2, bd, ba, pa.
  do 5 (split; [assumption|]). exact (F H4).
Defined.

(** ** The bounds along a sequence of calls *)

Lemma compute_scaling_bounds_ext
  (self other : TimeScaler) (dbeta d2beta dphi_dot : Q) :
  beta_dot_b other = beta_dot_b self ->
  beta_2dot_b other = beta_2dot_b self ->
  phi_2dot_b other = phi_2dot_b self ->
  compute_scaling_bounds other dbeta d2beta dphi_dot
  = compute_scaling_bounds self dbeta d2beta dphi_dot.
Proof.
  intros H1 H2 H3.
  unfold compute_scaling_bounds, all_in_range. rewrite H1, H2, H3.
  reflexivity.
Qed.

Lemma run_keeps_bound_lists (calls : list call) :
  forall self,
    beta_dot_b (run self calls) = beta_dot_b self
    /\ beta_2dot_b (run self calls) = beta_2dot_b self
    /\ phi_2dot_b (run self calls) = phi_2dot_b self.
Proof.
  induction calls as [|c calls IH]; intro self; [auto|].
  change (run self (c :: calls)) with (run (step self c) calls).
  destruct (IH (step self c)) as (A & B & C).
  rewrite A, B, C. destruct c; auto.
Qed.

(** X12. No sequence of method calls changes the three bound lists of an
    object, so [compute_scaling_bounds] answers a sample the same way
    before and after any such sequence, whatever parameters were stored in
    between. *)
Theorem bounds_survive_calls
  (self : TimeScaler) (calls : list call) (dbeta d2beta dphi_dot : Q) :
  beta_dot_b (run self calls) = beta_dot_b self
  /\ beta_2dot_b (run self calls) = beta_2dot_b self
  /\ phi_2dot_b (run self calls) = phi_2dot_b self
  /\ compute_scaling_bounds (run self calls) dbeta d2beta dphi_dot
     = compute_scaling_bounds self dbeta d2beta dphi_dot.
Proof.
  destruct (run_keeps_bound_lists calls self) as (A & B & C).
  repeat (split; [assumption|]).
  apply compute_scaling_bounds_ext; assumption.
Qed.

(** ** Linearity of the scaling *)

